(** * The in-memory version-control core of the IDE

    A shallow embedding of the branch / staging / commit logic of [App.tsx]
    (tree helpers [findFileInTree], [updateFileInTree], [findChangedFiles],
    [updateStatusesInTree] and the handlers of the [App] component), of the
    commit guard of [GitPanel.tsx] and of the data types of [types.ts].

    Conventions of the embedding.
    - JavaScript strings are Rocq [string]s (sequences of 8-bit characters).
    - [Set<string>] is a [gset string]: membership, [add], [delete] and
      [size === 0] are what the handlers use; the insertion order of a
      JavaScript [Set] is not represented.
    - [Record<string, BranchState>] is a [gmap string BranchState] holding
      the object's own keys; where the source only tests [store[key]] for
      truthiness, the names inherited from [Object.prototype] count as
      present too ([Object_prototype]).
    - TypeScript types are erased at run time, so the root of a branch is a
      [FileSystemItem]; [as FolderItem] is the identity.
    - React state is the record [AppState].  A handler reads the values of
      the render it was created in and queues updates; one event is handled
      to completion before the next one, so a handler is a function from the
      state before the event to an [Outcome] holding the state after it.
    - [Date.now()], [new Date().toISOString()] and [window.prompt] are
      inputs of the handlers that use them. *)

From Stdlib Require Import Ascii String.
From stdpp Require Import gmap strings list fin_maps pretty.

Set Default Proof Using "Type".

(** ** Data model ([types.ts]) *)

Inductive GitStatus := unmodified | modified | new.

#[global] Instance GitStatus_eq_dec : EqDecision GitStatus.
Proof. solve_decision. Defined.

(** [FileItem]; the constant field [type: 'file'] is the constructor [File]
    of [FileSystemItem]. *)
Record FileItem := {
  id : string;
  name : string;
  language : string;
  content : string;
  gitStatus : GitStatus;
}.

#[global] Instance FileItem_eq_dec : EqDecision FileItem.
Proof. solve_decision. Defined.

(** [FileSystemItem = FileItem | FolderItem]; a [FolderItem] is
    [{id, type: 'folder', name, children}]. *)
#[local] Unset Elimination Schemes.
Inductive FileSystemItem :=
| File (f : FileItem)
| Folder (folder_id folder_name : string) (children : list FileSystemItem).
#[local] Set Elimination Schemes.

(** [Commit]; its [id] field is [commit_id] here, the name [id] being taken
    by [FileItem]. *)
Record Commit := {
  commit_id : string;
  message : string;
  timestamp : string;
}.

(** [Partial<FileItem>]: every field may be absent.  (The field [type] can
    only hold ['file'] and is left out.) *)
Record PartialFileItem := {
  p_id : option string;
  p_name : option string;
  p_language : option string;
  p_content : option string;
  p_gitStatus : option GitStatus;
}.

(** [{ ...item, ...updates }] *)
Definition spread (item : FileItem) (updates : PartialFileItem) : FileItem :=
  {| id := default (id item) (p_id updates);
     name := default (name item) (p_name updates);
     language := default (language item) (p_language updates);
     content := default (content item) (p_content updates);
     gitStatus := default (gitStatus item) (p_gitStatus updates) |}.

(** [interface BranchState] *)
Record BranchState := {
  fileSystem : FileSystemItem;
  stagedFiles : gset string;
  commits : list Commit;
}.

(** ** Recursive tree helpers *)

Fixpoint findFileInTree (item : FileSystemItem) (fileId : string)
  : option FileItem :=
  match item with
  | File f => if decide (id f = fileId) then Some f else None
  | Folder _ _ children =>
      (fix loop (cs : list FileSystemItem) : option FileItem :=
         match cs with
         | [] => None
         | child :: rest =>
             match findFileInTree child fileId with
             | Some found => Some found
             | None => loop rest
             end
         end) children
  end.

Fixpoint updateFileInTree (item : FileSystemItem) (fileId : string)
    (updates : PartialFileItem) : FileSystemItem :=
  match item with
  | File f => if decide (id f = fileId) then File (spread f updates) else item
  | Folder i n children =>
      Folder i n (map (fun child => updateFileInTree child fileId updates) children)
  end.

(** [allFiles] is the accumulator array the source pushes to. *)
Fixpoint findChangedFiles (item : FileSystemItem) (allFiles : list FileItem)
  : list FileItem :=
  match item with
  | File f =>
      if decide (gitStatus f ≠ unmodified) then allFiles ++ [f] else allFiles
  | Folder _ _ children =>
      fold_left (fun acc child => findChangedFiles child acc) children allFiles
  end.

Fixpoint updateStatusesInTree (item : FileSystemItem) (fileIds : gset string)
    (newStatus : GitStatus) : FileSystemItem :=
  match item with
  | File f =>
      if decide (id f ∈ fileIds)
      then File {| id := id f; name := name f; language := language f;
                   content := content f; gitStatus := newStatus |}
      else item
  | Folder i n children =>
      Folder i n (map (fun child => updateStatusesInTree child fileIds newStatus) children)
  end.

(** ** Strings: [trim] and [toLowerCase] on 8-bit characters *)

(** White space and line terminators with a code below 256: TAB, LF, VT, FF,
    CR, SP and NBSP. *)
Definition isWhiteSpace (a : ascii) : bool :=
  let c := N_of_ascii a in
  ((9 <=? c) && (c <=? 13) || (c =? 32) || (c =? 160))%N.

Fixpoint trimStart (s : string) : string :=
  match s with
  | EmptyString => EmptyString
  | String a rest => if isWhiteSpace a then trimStart rest else s
  end.

Fixpoint trimEnd (s : string) : string :=
  match s with
  | EmptyString => EmptyString
  | String a rest =>
      match trimEnd rest with
      | EmptyString => if isWhiteSpace a then EmptyString else String a EmptyString
      | t => String a t
      end
  end.

Definition trim (s : string) : string := trimEnd (trimStart s).

Definition toLowerCaseChar (a : ascii) : ascii :=
  let c := N_of_ascii a in
  if ((65 <=? c) && (c <=? 90)
      || (192 <=? c) && (c <=? 222) && negb (c =? 215))%N
  then ascii_of_N (c + 32) else a.

Fixpoint toLowerCase (s : string) : string :=
  match s with
  | EmptyString => EmptyString
  | String a rest => String (toLowerCaseChar a) (toLowerCase rest)
  end.

(** ** The state of the [App] component *)

(** The three [useState] cells the version-control handlers touch. *)
Record AppState := {
  branchStates : gmap string BranchState;
  currentBranch : string;
  activeFile : option FileItem;
}.

(** The clock as one event reads it. *)
Record Clock := {
  Date_now : N;
  Date_toISOString : string;
}.

(** What handling one event leaves behind.  [Alerted] is a handler that
    called [alert] and returned; [TypeError] is an uncaught exception (a
    property read on [undefined]), holding the state with the updates queued
    before the throw. *)
Inductive Outcome :=
| Returned (st : AppState)
| Alerted (text : string) (st : AppState)
| TypeError (st : AppState).

Definition stateOf (o : Outcome) : AppState :=
  match o with
  | Returned st | Alerted _ st | TypeError st => st
  end.

(** [const currentBranchState = branchStates[currentBranch]] *)
Definition currentBranchState (st : AppState) : option BranchState :=
  branchStates st !! currentBranch st.

(** Every render of [App] reads [currentBranchState.fileSystem]; when
    [branchStates[currentBranch]] is [undefined] the render throws and the
    handlers below do not exist. *)
Definition render (st : AppState) (handler : BranchState → Outcome) : Outcome :=
  match currentBranchState st with
  | Some cur => handler cur
  | None => TypeError st
  end.

Definition setBranchStates (f : gmap string BranchState → gmap string BranchState)
    (st : AppState) : AppState :=
  {| branchStates := f (branchStates st);
     currentBranch := currentBranch st;
     activeFile := activeFile st |}.

Definition setCurrentBranch (b : string) (st : AppState) : AppState :=
  {| branchStates := branchStates st;
     currentBranch := b;
     activeFile := activeFile st |}.

Definition setActiveFile (f : option FileItem → option FileItem)
    (st : AppState) : AppState :=
  {| branchStates := branchStates st;
     currentBranch := currentBranch st;
     activeFile := f (activeFile st) |}.

(** [setCurrentBranchState]: the updater is applied to [prev[currentBranch]];
    [None] is an updater that throws. *)
Definition setCurrentBranchState (updater : BranchState → option BranchState)
    (st : AppState) : option AppState :=
  prev ← branchStates st !! currentBranch st;
  next ← updater prev;
  Some (setBranchStates (λ m, <[currentBranch st := next]> m) st).

Definition finish (st : AppState) (queued : option AppState) : Outcome :=
  match queued with
  | Some st' => Returned st'
  | None => TypeError st
  end.

(** ** Handlers of [App] *)

Definition handleFileSelect (file : FileItem) (st : AppState) : Outcome :=
  render st (λ cur,
    Returned (setActiveFile (λ _, findFileInTree (fileSystem cur) (id file)) st)).

(** [filename] and [lang] are the answers of the two [window.prompt] calls
    ([None] is Cancel); the second prompt is only shown after a non-empty
    file name. *)
Definition handleCreateFile (clk : Clock) (filename lang : option string)
    (st : AppState) : Outcome :=
  render st (λ _,
    match filename with
    | None | Some EmptyString => Returned st
    | Some filename =>
        let lang := match lang with
                    | None | Some EmptyString => "plaintext"
                    | Some l => l
                    end in
        let newFile :=
          {| id := "file-" +:+ pretty (Date_now clk);
             name := trim filename;
             language := toLowerCase (trim lang);
             content := "";
             gitStatus := new |} in
        finish st
          (st' ← setCurrentBranchState (λ prev,
                   match fileSystem prev with
                   | Folder i n children =>
                       Some {| fileSystem := Folder i n (children ++ [File newFile]);
                               stagedFiles := stagedFiles prev;
                               commits := commits prev |}
                   | File _ => None
                   end) st;
           Some (setActiveFile (λ _, Some newFile) st'))
    end).

Definition handleCreateFolder (clk : Clock) (folderName : option string)
    (st : AppState) : Outcome :=
  render st (λ _,
    match folderName with
    | None | Some EmptyString => Returned st
    | Some folderName =>
        let newFolder :=
          Folder ("folder-" +:+ pretty (Date_now clk)) (trim folderName) [] in
        finish st
          (setCurrentBranchState (λ prev,
             match fileSystem prev with
             | Folder i n children =>
                 Some {| fileSystem := Folder i n (children ++ [newFolder]);
                         stagedFiles := stagedFiles prev;
                         commits := commits prev |}
             | File _ => None
             end) st)
    end).

(** The edit path.  [value] is what the editor reports ([None] is
    [undefined]); the status test reads the cached [activeFile], not the
    tree. *)
Definition handleCodeChange (value : option string) (st : AppState) : Outcome :=
  render st (λ _,
    match value, activeFile st with
    | Some value, Some active =>
        let updates :=
          {| p_id := None; p_name := None; p_language := None;
             p_content := Some value;
             p_gitStatus := if decide (gitStatus active = unmodified)
                            then Some modified else None |} in
        finish st
          (st' ← setCurrentBranchState (λ prev,
                   Some {| fileSystem := updateFileInTree (fileSystem prev) (id active) updates;
                           stagedFiles := stagedFiles prev;
                           commits := commits prev |}) st;
           Some (setActiveFile (λ prev, (λ p, spread p updates) <$> prev) st'))
    | _, _ => Returned st
    end).

(** *** Git and branching handlers *)

Definition handleStage (fileId : string) (st : AppState) : Outcome :=
  render st (λ _,
    finish st
      (setCurrentBranchState (λ prev,
         Some {| fileSystem := fileSystem prev;
                 stagedFiles := {[fileId]} ∪ stagedFiles prev;
                 commits := commits prev |}) st)).

Definition handleUnstage (fileId : string) (st : AppState) : Outcome :=
  render st (λ _,
    finish st
      (setCurrentBranchState (λ prev,
         Some {| fileSystem := fileSystem prev;
                 stagedFiles := stagedFiles prev ∖ {[fileId]};
                 commits := commits prev |}) st)).

Definition handleStageAll (st : AppState) : Outcome :=
  render st (λ cur,
    let allChangedIds := map id (findChangedFiles (fileSystem cur) []) in
    finish st
      (setCurrentBranchState (λ prev,
         Some {| fileSystem := fileSystem prev;
                 stagedFiles := list_to_set allChangedIds;
                 commits := commits prev |}) st)).

Definition handleCommit (clk : Clock) (message : string) (st : AppState)
  : Outcome :=
  render st (λ cur,
    if decide (size (stagedFiles cur) = 0)
    then Alerted "No files staged to commit." st
    else
      let newCommit :=
        {| commit_id := "commit-" +:+ pretty (Date_now clk);
           message := message;
           timestamp := Date_toISOString clk |} in
      finish st
        (setCurrentBranchState (λ prev,
           Some {| commits := newCommit :: commits prev;
                   fileSystem := updateStatusesInTree (fileSystem prev)
                                   (stagedFiles prev) unmodified;
                   stagedFiles := ∅ |}) st)).

(** The property names a plain object inherits from [Object.prototype];
    reading any of them yields a function or, for [__proto__], the
    prototype object: a truthy value. *)
Definition Object_prototype : list string :=
  ["constructor"; "hasOwnProperty"; "isPrototypeOf"; "propertyIsEnumerable";
   "toLocaleString"; "toString"; "valueOf"; "__proto__";
   "__defineGetter__"; "__defineSetter__"; "__lookupGetter__";
   "__lookupSetter__"].

(** [newBranchName] is the answer of [window.prompt] ([None] is Cancel).
    The test [branchStates[newBranchName]] is a truthiness test: it holds
    for an own key of the store (a snapshot is an object) and for a name
    inherited from [Object.prototype]. *)
Definition handleCreateBranch (newBranchName : option string) (st : AppState)
  : Outcome :=
  render st (λ cur,
    match newBranchName with
    | None | Some EmptyString => Alerted "Invalid branch name." st
    | Some newBranchName =>
        if decide (is_Some (branchStates st !! newBranchName)
                   ∨ newBranchName ∈ Object_prototype)
        then Alerted "Branch already exists." st
        else
          Returned
            (setCurrentBranch newBranchName
               (setBranchStates (λ prev, <[newBranchName := cur]> prev) st))
    end).

(** [newBranchFS.children.find(c => c.type === 'file')] *)
Fixpoint firstFile (children : list FileSystemItem) : option FileItem :=
  match children with
  | [] => None
  | File f :: _ => Some f
  | Folder _ _ _ :: rest => firstFile rest
  end.

Definition handleSwitchBranch (branchName : string) (st : AppState) : Outcome :=
  render st (λ _,
    if decide (branchName = currentBranch st) then Returned st
    else
      let st1 := setCurrentBranch branchName st in
      match branchStates st !! branchName with
      | None => TypeError st1
      | Some target =>
          let newBranchFS := fileSystem target in
          let newActiveFile :=
            match activeFile st with
            | Some active => findFileInTree newBranchFS (id active)
            | None => findFileInTree newBranchFS "user-service-ts"
            end in
          match newActiveFile, newBranchFS with
          | Some found, _ => Returned (setActiveFile (λ _, Some found) st1)
          | None, Folder _ _ children =>
              Returned (setActiveFile (λ _, firstFile children) st1)
          | None, File _ => TypeError st1
          end
      end).

(** ** The commit button of [GitPanel] *)

(** [stagedFileItems]: the staged ids that resolve in the tree. *)
Definition stagedFileItems (cur : BranchState) : list FileItem :=
  omap (findFileInTree (fileSystem cur)) (elements (stagedFiles cur)).

(** [GitPanel.handleCommit]; [commitMessage] is the text of the message box
    and [onCommit] is [handleCommit] of [App]. *)
Definition GitPanel_handleCommit (clk : Clock) (commitMessage : string)
    (st : AppState) : Outcome :=
  render st (λ cur,
    if decide (trim commitMessage ≠ "" ∧ 0 < length (stagedFileItems cur))
    then handleCommit clk (trim commitMessage) st
    else Returned st).

(** ** A concrete store, used by the examples

    One folder holding [a.ts] (unmodified) and [b.ts] (modified), on the
    single branch [main] with nothing staged and no commit. *)

Definition a_ts : FileItem :=
  {| id := "a.ts"; name := "a.ts"; language := "typescript";
     content := "let a = 1;"; gitStatus := unmodified |}.

Definition b_ts : FileItem :=
  {| id := "b.ts"; name := "b.ts"; language := "typescript";
     content := "let b = 2;"; gitStatus := modified |}.

Definition demoTree : FileSystemItem :=
  Folder "root" "project" [Folder "src-folder" "src" [File a_ts]; File b_ts].

Definition demoBranch (staged : list string) : BranchState :=
  {| fileSystem := demoTree; stagedFiles := list_to_set staged; commits := [] |}.

Definition demoState (staged : list string) : AppState :=
  {| branchStates := {[ "main" := demoBranch staged ]};
     currentBranch := "main";
     activeFile := Some a_ts |}.

Definition demoClock : Clock :=
  {| Date_now := 1700000000000; Date_toISOString := "2023-11-14T22:13:20.000Z" |}.

(** The same store after a first commit at the reading of [demoClock], with
    [b.ts] staged again. *)
Definition demoCommit : Commit :=
  {| commit_id := "commit-1700000000000"; message := "fix";
     timestamp := "2023-11-14T22:13:20.000Z" |}.

Definition demoBranchCommitted : BranchState :=
  {| fileSystem := demoTree; stagedFiles := list_to_set ["b.ts"];
     commits := [demoCommit] |}.

Definition demoStateCommitted : AppState :=
  {| branchStates := {[ "main" := demoBranchCommitted ]};
     currentBranch := "main";
     activeFile := Some a_ts |}.

(** ** Specification-side views of a tree *)

(** The file nodes of a tree, in pre-order. *)
Fixpoint files (item : FileSystemItem) : list FileItem :=
  match item with
  | File f => [f]
  | Folder _ _ children => flat_map files children
  end.

(** The tree with every status forgotten: what is left is the shape of the
    tree, the folders, and the id, name, language and content of each file. *)
Fixpoint eraseStatus (item : FileSystemItem) : FileSystemItem :=
  match item with
  | File f => File {| id := id f; name := name f; language := language f;
                      content := content f; gitStatus := unmodified |}
  | Folder i n children => Folder i n (map eraseStatus children)
  end.

Definition isFolder (item : FileSystemItem) : Prop :=
  match item with
  | Folder _ _ _ => True
  | File _ => False
  end.

Definition changed (f : FileItem) : Prop := gitStatus f ≠ unmodified.

(** [setStatus ids s f] is [f] as [updateStatusesInTree] leaves it. *)
Definition setStatus (fileIds : gset string) (newStatus : GitStatus)
    (f : FileItem) : FileItem :=
  if decide (id f ∈ fileIds)
  then {| id := id f; name := name f; language := language f;
          content := content f; gitStatus := newStatus |}
  else f.

(** [patch fileId updates f] is [f] as [updateFileInTree] leaves it. *)
Definition patch (fileId : string) (updates : PartialFileItem)
    (f : FileItem) : FileItem :=
  if decide (id f = fileId) then spread f updates else f.

(** [unstagedFiles]: the changed files the panel lists under "Changes",
    each with a button calling [onStage] on its id. *)
Definition unstagedFiles (cur : BranchState) : list FileItem :=
  filter (λ f, id f ∉ stagedFiles cur) (findChangedFiles (fileSystem cur) []).

(** ** Events *)

(** The events of the version-control core, named after the props through
    which the components raise them. *)
Inductive Event :=
| OnFileSelect (file : FileItem)
| OnCreateFile (filename lang : option string)
| OnCreateFolder (folderName : option string)
| OnChange (value : option string)
| OnStage (fileId : string)
| OnUnstage (fileId : string)
| OnStageAll
| OnCommit (message : string)
| CommitButton (commitMessage : string)
| OnCreateBranch (newBranchName : option string)
| OnSwitchBranch (branchName : string).

Definition step (clk : Clock) (e : Event) (st : AppState) : Outcome :=
  match e with
  | OnFileSelect file => handleFileSelect file st
  | OnCreateFile filename lang => handleCreateFile clk filename lang st
  | OnCreateFolder folderName => handleCreateFolder clk folderName st
  | OnChange value => handleCodeChange value st
  | OnStage fileId => handleStage fileId st
  | OnUnstage fileId => handleUnstage fileId st
  | OnStageAll => handleStageAll st
  | OnCommit message => handleCommit clk message st
  | CommitButton commitMessage => GitPanel_handleCommit clk commitMessage st
  | OnCreateBranch newBranchName => handleCreateBranch newBranchName st
  | OnSwitchBranch branchName => handleSwitchBranch branchName st
  end.

(** Events are handled one after the other; nothing is handled after an
    uncaught exception. *)
Fixpoint exec (events : list (Clock * Event)) (st : AppState) : Outcome :=
  match events with
  | [] => Returned st
  | (clk, e) :: rest =>
      match step clk e st with
      | Returned st' | Alerted _ st' => exec rest st'
      | TypeError st' => TypeError st'
      end
  end.

(** The events that stay on the current branch. *)
Definition branchLocal (e : Event) : Prop :=
  match e with
  | OnCreateBranch _ | OnSwitchBranch _ => False
  | _ => True
  end.

(** [touchesCurrentOnly st st']: from [st] to [st'] the current branch is
    the same and the snapshot of every other branch is the same. *)
Definition touchesCurrentOnly (st st' : AppState) : Prop :=
  currentBranch st' = currentBranch st
  ∧ ∀ b, b ≠ currentBranch st → branchStates st' !! b = branchStates st !! b.

(** ** The staged-set invariant *)

(** A snapshot is consistent when every staged id is the id of a file of its
    tree whose status is not [unmodified]. *)
Definition stagedOk (bs : BranchState) : Prop :=
  ∀ i, i ∈ stagedFiles bs →
    ∃ f, f ∈ files (fileSystem bs) ∧ id f = i ∧ changed f.


(** [stagesChangedFile st e]: if [e] stages an id, the id is that of a
    changed file of the current tree. *)
Definition stagesChangedFile (st : AppState) (e : Event) : Prop :=
  match e with
  | OnStage fileId =>
      ∀ cur, currentBranchState st = Some cur →
        ∃ f, f ∈ files (fileSystem cur) ∧ id f = fileId ∧ changed f
  | _ => True
  end.

(** ** The effects of a commit *)

(** [committed clk msg cur cur']: snapshot [cur'] is [cur] after a commit
    with message [msg] at clock reading [clk]: nothing is staged, the files
    correspond one to one and those that were staged are [unmodified], and
    the log is the old log behind one new commit carrying [msg]. *)
Definition committed (clk : Clock) (msg : string) (cur cur' : BranchState)
  : Prop :=
  stagedFiles cur' = ∅
  ∧ Forall2 (λ f f', id f' = id f
                     ∧ (id f ∈ stagedFiles cur → gitStatus f' = unmodified))
      (files (fileSystem cur)) (files (fileSystem cur'))
  ∧ ∃ c, commits cur' = c :: commits cur
         ∧ message c = msg
         ∧ commit_id c = "commit-" +:+ pretty (Date_now clk)
         ∧ timestamp c = Date_toISOString clk.

(** A log whose commits were all made at clock readings before [now]. *)
Definition madeBefore (now : N) (log : list Commit) : Prop :=
  ∀ c, c ∈ log → ∃ t, (t < now)%N ∧ commit_id c = "commit-" +:+ pretty t.

(** ** The folder toggle of [FileExplorer.tsx] *)

(** The updater of [handleToggleFolder], on the set of expanded folders. *)
Definition handleToggleFolder (folderId : string) (prev : gset string)
  : gset string :=
  if decide (folderId ∈ prev) then prev ∖ {[folderId]} else {[folderId]} ∪ prev.

(** ** [escapeHtml] of [AiPanel.tsx] *)

(** [str.replace(/c/g, by)] for a one-character pattern. *)
Fixpoint replaceAll (c : ascii) (by_ : string) (str : string) : string :=
  match str with
  | EmptyString => EmptyString
  | String a rest =>
      if decide (a = c) then by_ +:+ replaceAll c by_ rest
      else String a (replaceAll c by_ rest)
  end.

Definition quot : ascii := "034"%char.
Definition apos : ascii := "039"%char.

Definition escapeHtml (str : string) : string :=
  replaceAll apos "&#39;"
    (replaceAll quot "&quot;"
       (replaceAll ">" "&gt;"
          (replaceAll "<" "&lt;"
             (replaceAll "&" "&amp;" str)))).

(** The characters [escapeHtml] is there to remove. *)
Definition htmlMeta (a : ascii) : Prop :=
  a = "<"%char ∨ a = ">"%char ∨ a = quot ∨ a = apos.

(** ** The terminal ([Terminal.tsx]) *)

Fixpoint findFileByName (item : FileSystemItem) (fileName : string)
  : option FileItem :=
  match item with
  | File f => if decide (name f = fileName) then Some f else None
  | Folder _ _ children =>
      (fix loop (cs : list FileSystemItem) : option FileItem :=
         match cs with
         | [] => None
         | child :: rest =>
             match findFileByName child fileName with
             | Some found => Some found
             | None => loop rest
             end
         end) children
  end.

(** [s.split(' ')]: the pieces between single spaces; never empty. *)
Fixpoint split (s : string) : list string :=
  match s with
  | EmptyString => [EmptyString]
  | String a rest =>
      if decide (a = " "%char) then EmptyString :: split rest
      else match split rest with
           | piece :: pieces => String a piece :: pieces
           | [] => [String a EmptyString]
           end
  end.

Definition newline : string := String "010"%char EmptyString.

Inductive OutputLineType := command | response.

(** [interface OutputLine]; the fields [type] and [content]. *)
Record OutputLine := {
  line_type : OutputLineType;
  line_content : string;
}.

(** The four cells of the [Terminal] component. *)
Record TerminalState := {
  input : string;
  output : list OutputLine;
  history : list string;
  historyIndex : Z;
}.

Definition setInput (v : string) (t : TerminalState) : TerminalState :=
  {| input := v; output := output t; history := history t;
     historyIndex := historyIndex t |}.

Definition setOutput (v : list OutputLine) (t : TerminalState) : TerminalState :=
  {| input := input t; output := v; history := history t;
     historyIndex := historyIndex t |}.

Definition setHistory (f : list string → list string) (t : TerminalState)
  : TerminalState :=
  {| input := input t; output := output t; history := f (history t);
     historyIndex := historyIndex t |}.

Definition setHistoryIndex (v : Z) (t : TerminalState) : TerminalState :=
  {| input := input t; output := output t; history := history t;
     historyIndex := v |}.

(** [history[i]]; [None] is [undefined]. *)
Definition at_index (l : list string) (i : Z) : option string :=
  if decide (0 ≤ i)%Z then l !! Z.to_nat i else None.

(** [e.key] *)
Inductive Key := Enter | ArrowUp | ArrowDown | OtherKey.

Section terminal.

(** The two icons and the two branch marks of the listing are characters
    outside the 8-bit alphabet of the embedding; they are parameters. *)
Variable folderIcon fileIcon lastMark midMark : string.

Fixpoint generateTreeString (item : FileSystemItem) (prefix : string) : string :=
  match item with
  | File f => prefix +:+ fileIcon +:+ " " +:+ name f +:+ newline
  | Folder _ n children =>
      (prefix +:+ folderIcon +:+ " " +:+ n +:+ newline)
      +:+ (fix each (cs : list FileSystemItem) : string :=
             match cs with
             | [] => EmptyString
             | [child] => generateTreeString child (prefix +:+ lastMark)
             | child :: rest =>
                 generateTreeString child (prefix +:+ midMark) +:+ each rest
             end) children
  end.

(** [processCommand]: the response, and the terminal state with what the
    command queued ([clear] queues [setOutput([])]). *)
Definition processCommand (fileSystem : FileSystemItem) (cmdline : string)
    (t : TerminalState) : string * TerminalState :=
  match split (trim cmdline) with
  | [] => (EmptyString, t)
  | cmd :: args =>
      if decide (cmd = "help")
      then ("Available commands: ls, cat [filename], run [filename], clear, help", t)
      else if decide (cmd = "ls")
      then (trim (generateTreeString fileSystem ""), t)
      else if decide (cmd = "cat")
      then match args with
           | [] => ("Usage: cat [filename]", t)
           | arg :: _ =>
               match findFileByName fileSystem arg with
               | Some file => (content file, t)
               | None => ("Error: File not found: " +:+ arg, t)
               end
           end
      else if decide (cmd = "run")
      then match args with
           | [] => ("Usage: run [filename]", t)
           | arg :: _ =>
               match findFileByName fileSystem arg with
               | Some fileToRun =>
                   ("Simulating execution of " +:+ name fileToRun +:+ "..."
                    +:+ newline +:+ "Execution complete.", t)
               | None => ("Error: File not found: " +:+ arg, t)
               end
           end
      else if decide (cmd = "clear") then (EmptyString, setOutput [] t)
      else if decide (cmd = "") then (EmptyString, t)
      else ("command not found: " +:+ cmd, t)
  end.

(** [handleKeyDown].  The handler reads the cells of the render [t] and
    queues its writes, the later write to a cell replacing the earlier one.
    [None] is a handler that would store [undefined] in the input cell. *)
Definition handleKeyDown (fileSystem : FileSystemItem) (key : Key)
    (t : TerminalState) : option TerminalState :=
  match key with
  | Enter =>
      let cmdline := trim (input t) in
      let '(resp, queued) := processCommand fileSystem cmdline t in
      let newOutput :=
        (output t ++ [{| line_type := command; line_content := cmdline |}])
        ++ (if decide (resp = "") then []
            else [{| line_type := response; line_content := resp |}]) in
      let queued := setOutput newOutput queued in
      let queued :=
        if decide (cmdline ≠ "" ∧ cmdline ≠ default "" (head (history t)))
        then setHistory (λ prev, cmdline :: prev) queued
        else queued in
      Some (setInput "" (setHistoryIndex (-1) queued))
  | ArrowUp =>
      if decide (0 < length (history t)
                 ∧ (historyIndex t < Z.of_nat (length (history t)) - 1)%Z)
      then
        let newIndex := (historyIndex t + 1)%Z in
        entry ← at_index (history t) newIndex;
        Some (setInput entry (setHistoryIndex newIndex t))
      else Some t
  | ArrowDown =>
      if decide (0 < historyIndex t)%Z
      then
        let newIndex := (historyIndex t - 1)%Z in
        entry ← at_index (history t) newIndex;
        Some (setInput entry (setHistoryIndex newIndex t))
      else Some (setInput "" (setHistoryIndex (-1) t))
  | OtherKey => Some t
  end.

End terminal.

(** ** Properties of states and of pairs of states *)

(** The open file, if any, carries the id of a file of the current tree. *)
Definition activeResolves (st : AppState) : Prop :=
  ∀ active cur,
    activeFile st = Some active →
    currentBranchState st = Some cur →
    ∃ f, f ∈ files (fileSystem cur) ∧ id f = id active.

(** [grows prev next]: snapshot [next] has the commits of [prev] behind at
    most one new commit, and for each file of [prev] a file with the same
    id at the same place, possibly followed by new files. *)
Definition grows (prev next : BranchState) : Prop :=
  (∃ new, commits next = new ++ commits prev ∧ length new ≤ 1)
  ∧ ∃ kept added,
      files (fileSystem next) = kept ++ added
      ∧ Forall2 (λ f f', id f' = id f) (files (fileSystem prev)) kept.

(** [storeGrows st st']: every branch of [st] is a branch of [st'], with
    the same snapshot if it is not the current branch of [st], with a grown
    one otherwise. *)
Definition storeGrows (st st' : AppState) : Prop :=
  ∀ b bs,
    branchStates st !! b = Some bs →
    ∃ bs', branchStates st' !! b = Some bs'
           ∧ (b ≠ currentBranch st → bs' = bs)
           ∧ grows bs bs'.

(** What [escapeHtml] makes of one character, and the character by
    character escape it is compared with. *)
Definition entity (a : ascii) : string :=
  if decide (a = "&"%char) then "&amp;"
  else if decide (a = "<"%char) then "&lt;"
  else if decide (a = ">"%char) then "&gt;"
  else if decide (a = quot) then "&quot;"
  else if decide (a = apos) then "&#39;"
  else String a EmptyString.

Fixpoint escapeEach (str : string) : string :=
  match str with
  | EmptyString => EmptyString
  | String a rest => entity a +:+ escapeEach rest
  end.

(** A string without white space. *)
Definition noWhiteSpace (s : string) : Prop :=
  Forall (λ a, isWhiteSpace a = false) (list_ascii_of_string s).

(** A command history without empty entry and without two equal entries
    next to each other. *)
Definition cleanHistory (h : list string) : Prop :=
  Forall (λ c, c ≠ "") h
  ∧ ∀ i x y, h !! i = Some x → h !! S i = Some y → x ≠ y.

(** The history index of the terminal is [-1] or an index of the history. *)
Definition indexInRange (t : TerminalState) : Prop :=
  (-1 ≤ historyIndex t < Z.of_nat (length (history t)))%Z.

(** ** Induction on trees *)

Section tree_induction.
Variable P : FileSystemItem → Prop.
Hypothesis P_file : ∀ f, P (File f).
Hypothesis P_folder :
  ∀ i n children, Forall P children → P (Folder i n children).

Fixpoint FileSystemItem_ind (item : FileSystemItem) : P item :=
  match item with
  | File f => P_file f
  | Folder i n children =>
      P_folder i n children
        ((fix all (cs : list FileSystemItem) : Forall P cs :=
            match cs with
            | [] => Forall_nil_2 P
            | c :: rest => Forall_cons_2 P c rest (FileSystemItem_ind c) (all rest)
            end) children)
  end.
End tree_induction.

(** ** Facts about the tree helpers *)

(** [findFileInTree] returns the first file of the pre-order with the id. *)
Lemma findFileInTree_files item fileId :
  findFileInTree item fileId = head (filter (λ f, id f = fileId) (files item)).
Proof.
  induction item as [f|i n children IH] using FileSystemItem_ind; simpl.
  - rewrite filter_cons, filter_nil. by case_decide.
  - induction IH as [|c rest Hc _ IHrest]; [done|].
    simpl. rewrite filter_app, head_app, <- Hc.
    destruct (findFileInTree c fileId); [done|apply IHrest].
Qed.

Lemma findFileInTree_None item fileId :
  findFileInTree item fileId = None ↔ ∀ f, f ∈ files item → id f ≠ fileId.
Proof.
  rewrite findFileInTree_files, head_None. split.
  - intros Hnil f Hf Hid. exact (filter_nil_not_elem_of _ _ f Hnil Hid Hf).
  - intros Hall. induction (files item) as [|f l IHl]; [done|].
    rewrite filter_cons. case_decide as Hid.
    + destruct (Hall f); [left|done].
    + apply IHl. intros g Hg. apply Hall. by right.
Qed.

Lemma findFileInTree_Some item fileId f :
  findFileInTree item fileId = Some f → f ∈ files item ∧ id f = fileId.
Proof.
  rewrite findFileInTree_files. intros Hhd.
  apply head_Some_elem_of, list_elem_of_filter in Hhd. tauto.
Qed.

Lemma files_updateFileInTree item fileId updates :
  files (updateFileInTree item fileId updates)
  = map (patch fileId updates) (files item).
Proof.
  induction item as [f|i n children IH] using FileSystemItem_ind; simpl.
  - unfold patch. by case_decide.
  - induction IH as [|c rest Hc _ IHrest]; [done|].
    simpl. by rewrite map_app, Hc, IHrest.
Qed.

Lemma files_updateStatusesInTree item fileIds newStatus :
  files (updateStatusesInTree item fileIds newStatus)
  = map (setStatus fileIds newStatus) (files item).
Proof.
  induction item as [f|i n children IH] using FileSystemItem_ind; simpl.
  - unfold setStatus. by case_decide.
  - induction IH as [|c rest Hc _ IHrest]; [done|].
    simpl. by rewrite map_app, Hc, IHrest.
Qed.

Lemma eraseStatus_updateStatusesInTree item fileIds newStatus :
  eraseStatus (updateStatusesInTree item fileIds newStatus) = eraseStatus item.
Proof.
  induction item as [f|i n children IH] using FileSystemItem_ind; simpl.
  - by case_decide.
  - f_equal. induction IH as [|c rest Hc _ IHrest]; [done|].
    simpl. by rewrite Hc, IHrest.
Qed.

(** [findChangedFiles] appends the changed files, in tree order, to the
    accumulator. *)
Lemma findChangedFiles_files item allFiles :
  findChangedFiles item allFiles = allFiles ++ filter changed (files item).
Proof.
  revert allFiles.
  induction item as [f|i n children IH] using FileSystemItem_ind;
    intros allFiles; simpl.
  - rewrite filter_cons, filter_nil. unfold changed.
    case_decide; [done|by rewrite app_nil_r].
  - revert allFiles. induction IH as [|c rest Hc _ IHrest]; intros allFiles.
    + by rewrite app_nil_r.
    + simpl. rewrite IHrest, Hc, filter_app. by rewrite <- app_assoc.
Qed.

Lemma updateFileInTree_absent item fileId updates :
  (∀ f, f ∈ files item → id f ≠ fileId) →
  updateFileInTree item fileId updates = item.
Proof.
  induction item as [f|i n children IH] using FileSystemItem_ind;
    simpl; intros Habs.
  - case_decide as Hid; [|done]. destruct (Habs f); [left|done].
  - f_equal. induction IH as [|c rest Hc _ IHrest]; [done|].
    simpl in *. rewrite Hc, IHrest; [done| |];
      intros f Hf; apply Habs, elem_of_app; auto.
Qed.

(** ** Lookups in the store after an update of the current branch *)

Lemma render_Some st cur handler :
  currentBranchState st = Some cur → render st handler = handler cur.
Proof. unfold render. by intros ->. Qed.

Lemma setCurrentBranchState_Some st cur next updater :
  currentBranchState st = Some cur →
  updater cur = Some next →
  setCurrentBranchState updater st
  = Some (setBranchStates (λ m, <[currentBranch st := next]> m) st).
Proof.
  unfold currentBranchState, setCurrentBranchState.
  intros -> Hnext. simpl. by rewrite Hnext.
Qed.

Lemma currentBranchState_replaced st next :
  currentBranchState (setBranchStates (λ m, <[currentBranch st := next]> m) st)
  = Some next.
Proof. unfold currentBranchState. simpl. apply lookup_insert_eq. Qed.

(** ** The tree laws *)

(** C8 (update no-op law).  For every tree, every patch and every id that
    [findFileInTree] resolves to no file of the tree, [updateFileInTree]
    returns the tree it was given; being a total function it returns for
    every input. *)
Theorem updateFileInTree_unknown_id tree fileId updates :
  findFileInTree tree fileId = None →
  updateFileInTree tree fileId updates = tree.
Proof.
  intros Hnone. apply updateFileInTree_absent. by apply findFileInTree_None.
Qed.

Lemma updateFileInTree_unknown_id_witness :
  findFileInTree demoTree "ghost" = None
  ∧ updateFileInTree demoTree "ghost"
      {| p_id := None; p_name := None; p_language := None;
         p_content := Some "edited"; p_gitStatus := Some modified |}
    = demoTree.
Proof.
  split; [reflexivity|].
  apply updateFileInTree_unknown_id. reflexivity.
Defined.

(** ** Staging *)

(** C9 (stageAll).  [handleStageAll] makes the staged set of the current
    branch exactly the set of ids of the files [findChangedFiles] returns for
    its tree, whatever was staged before (tree and log are kept), and a
    second [handleStageAll] right after the first leaves the state as the
    first one left it. *)
Theorem handleStageAll_exact st cur :
  currentBranchState st = Some cur →
  ∃ st' cur',
    handleStageAll st = Returned st'
    ∧ currentBranchState st' = Some cur'
    ∧ (∀ i, i ∈ stagedFiles cur'
            ↔ ∃ f, f ∈ findChangedFiles (fileSystem cur) [] ∧ id f = i)
    ∧ fileSystem cur' = fileSystem cur
    ∧ commits cur' = commits cur
    ∧ handleStageAll st' = Returned st'.
Proof.
  intros Hcur.
  set (next := {| fileSystem := fileSystem cur;
                  stagedFiles := list_to_set (map id (findChangedFiles (fileSystem cur) []));
                  commits := commits cur |}).
  assert (handleStageAll st
          = Returned (setBranchStates (λ m, <[currentBranch st := next]> m) st))
    as Hrun.
  { unfold handleStageAll. rewrite (render_Some _ _ _ Hcur).
    by erewrite setCurrentBranchState_Some. }
  eexists _, next. split; [exact Hrun|].
  split; [apply currentBranchState_replaced|].
  split; [|split; [done|split; [done|]]].
  - intros i. subst next. simpl. rewrite elem_of_list_to_set.
    rewrite list_elem_of_In, in_map_iff.
    setoid_rewrite <- list_elem_of_In.
    split; intros (f & ? & ?); by exists f.
  - unfold handleStageAll.
    rewrite (render_Some _ next) by apply currentBranchState_replaced.
    erewrite setCurrentBranchState_Some;
      [|apply currentBranchState_replaced|reflexivity].
    unfold setBranchStates. simpl. by rewrite insert_insert_eq.
Qed.

Lemma handleStageAll_exact_witness :
  ∃ st' cur',
    handleStageAll (demoState ["ghost"]) = Returned st'
    ∧ currentBranchState st' = Some cur'
    ∧ (∀ i, i ∈ stagedFiles cur'
            ↔ ∃ f, f ∈ findChangedFiles (fileSystem (demoBranch ["ghost"])) []
                   ∧ id f = i)
    ∧ fileSystem cur' = fileSystem (demoBranch ["ghost"])
    ∧ commits cur' = commits (demoBranch ["ghost"])
    ∧ handleStageAll st' = Returned st'.
Proof. apply (handleStageAll_exact (demoState ["ghost"])). reflexivity. Defined.

(** ** Commit *)

Lemma handleCommit_staged clk msg st cur :
  currentBranchState st = Some cur →
  stagedFiles cur ≠ ∅ →
  handleCommit clk msg st
  = Returned
      (setBranchStates
         (λ m, <[currentBranch st :=
                   {| commits := {| commit_id := "commit-" +:+ pretty (Date_now clk);
                                    message := msg;
                                    timestamp := Date_toISOString clk |}
                                 :: commits cur;
                      fileSystem := updateStatusesInTree (fileSystem cur)
                                      (stagedFiles cur) unmodified;
                      stagedFiles := ∅ |}]> m) st).
Proof.
  intros Hcur Hstaged. unfold handleCommit.
  rewrite (render_Some _ _ _ Hcur).
  case_decide as Hsize; [by apply size_empty_iff, leibniz_equiv in Hsize|].
  by erewrite setCurrentBranchState_Some.
Qed.

Lemma handleCommit_nothing_staged clk msg st cur :
  currentBranchState st = Some cur →
  stagedFiles cur = ∅ →
  handleCommit clk msg st = Alerted "No files staged to commit." st.
Proof.
  intros Hcur Hstaged. unfold handleCommit.
  rewrite (render_Some _ _ _ Hcur), Hstaged.
  by rewrite decide_True by apply size_empty.
Qed.

Lemma Forall2_map_r {A B} (P : A → B → Prop) (g : A → B) (l : list A) :
  (∀ x, x ∈ l → P x (g x)) → Forall2 P l (map g l).
Proof.
  induction l as [|x l IHl]; intros HP; simpl; constructor.
  - apply HP. left.
  - apply IHl. intros y Hy. apply HP. by right.
Qed.

Lemma committed_snapshot clk msg cur :
  committed clk msg cur
    {| commits := {| commit_id := "commit-" +:+ pretty (Date_now clk);
                     message := msg;
                     timestamp := Date_toISOString clk |} :: commits cur;
       fileSystem := updateStatusesInTree (fileSystem cur) (stagedFiles cur) unmodified;
       stagedFiles := ∅ |}.
Proof.
  split; [done|]. split; [|by eexists].
  simpl. rewrite files_updateStatusesInTree.
  apply Forall2_map_r. intros f _. unfold setStatus.
  case_decide; simpl; by split.
Qed.

(** Whatever the input, a commit leaves either the state it found or a
    state in which the current snapshot shows all the effects of a commit. *)
Lemma handleCommit_all_or_nothing clk msg st :
  stateOf (handleCommit clk msg st) = st
  ∨ ∃ cur cur',
      currentBranchState st = Some cur
      ∧ currentBranchState (stateOf (handleCommit clk msg st)) = Some cur'
      ∧ committed clk msg cur cur'.
Proof.
  destruct (currentBranchState st) as [cur|] eqn:Hcur.
  - destruct (decide (stagedFiles cur = ∅)) as [Hempty|Hstaged].
    + left. by erewrite handleCommit_nothing_staged.
    + right. eexists cur, _. split; [done|].
      rewrite (handleCommit_staged _ _ _ _ Hcur Hstaged). simpl.
      split; [apply currentBranchState_replaced|apply committed_snapshot].
  - left. unfold handleCommit, render. by rewrite Hcur.
Qed.

Lemma commit_id_fresh now log :
  madeBefore now log →
  ∀ c, c ∈ log → commit_id c ≠ "commit-" +:+ pretty now.
Proof.
  intros Hlog c Hc Heq. destruct (Hlog c Hc) as (t & Hlt & Hid).
  rewrite Hid in Heq. simpl in Heq. simplify_eq. lia.
Qed.

(** C1 as specified fails on the word fresh: the id of a commit is the
    clock reading, so a commit made at the reading of an earlier one gets
    its id.  Here the new first element of the log is a commit the log
    already held. *)
Lemma handleCommit_id_not_fresh :
  currentBranchState demoStateCommitted = Some demoBranchCommitted
  ∧ stagedFiles demoBranchCommitted ≠ ∅
  ∧ ∃ st' cur' c,
      handleCommit demoClock "fix" demoStateCommitted = Returned st'
      ∧ currentBranchState st' = Some cur'
      ∧ head (commits cur') = Some c
      ∧ message c = "fix"
      ∧ c ∈ commits demoBranchCommitted.
Proof.
  assert (stagedFiles demoBranchCommitted ≠ ∅) as Hstaged
    by (apply (bool_decide_unpack _); vm_compute; exact I).
  split; [reflexivity|]. split; [exact Hstaged|].
  eexists _, _, demoCommit.
  split; [by apply (handleCommit_staged _ _ _ demoBranchCommitted)|].
  split; [apply currentBranchState_replaced|].
  split; [reflexivity|]. split; [reflexivity|]. left.
Qed.

(** C1 (commit atomicity), amended.  In every state whose current branch
    has a non-empty staged set, [handleCommit] with any message (so with any
    non-blank one) returns normally, and the snapshot of the current branch
    it leaves has an empty staged set, the same files with every one whose
    id was staged now [unmodified], and a commit log made of the old log
    behind one new commit that carries exactly the message and has the id
    [commit-] followed by the clock reading.  That id differs from the id
    of every commit made at an earlier clock reading; it is not fresh
    otherwise.  The three effects come together: for every input the state
    after [handleCommit] is the state before it or one showing all three. *)
Theorem handleCommit_atomic clk msg st cur :
  currentBranchState st = Some cur →
  stagedFiles cur ≠ ∅ →
  (∃ st' cur',
     handleCommit clk msg st = Returned st'
     ∧ currentBranch st' = currentBranch st
     ∧ currentBranchState st' = Some cur'
     ∧ committed clk msg cur cur'
     ∧ (∀ i f', i ∈ stagedFiles cur →
          findFileInTree (fileSystem cur') i = Some f' →
          gitStatus f' = unmodified)
     ∧ (madeBefore (Date_now clk) (commits cur) →
        ∀ c old, head (commits cur') = Some c → old ∈ commits cur →
          commit_id old ≠ commit_id c))
  ∧ (∀ clk0 msg0 st0,
       stateOf (handleCommit clk0 msg0 st0) = st0
       ∨ ∃ cur0 cur0',
           currentBranchState st0 = Some cur0
           ∧ currentBranchState (stateOf (handleCommit clk0 msg0 st0)) = Some cur0'
           ∧ committed clk0 msg0 cur0 cur0').
Proof.
  intros Hcur Hstaged. split; [|apply handleCommit_all_or_nothing].
  eexists _, _. split; [by apply handleCommit_staged|].
  split; [done|]. split; [apply currentBranchState_replaced|].
  split; [apply committed_snapshot|]. split.
  - simpl. intros i f' Hi Hfind.
    apply findFileInTree_Some in Hfind as [Hin <-].
    rewrite files_updateStatusesInTree, list_elem_of_In, in_map_iff in Hin.
    destruct Hin as (f & <- & _). unfold setStatus in *.
    case_decide; simpl in *; done.
  - simpl. intros Hlog c old [= <-] Hold. simpl.
    by apply (commit_id_fresh (Date_now clk) (commits cur)).
Qed.

Lemma handleCommit_atomic_witness :
  currentBranchState (demoState ["b.ts"]) = Some (demoBranch ["b.ts"])
  ∧ ∃ st' cur',
      handleCommit demoClock "fix" (demoState ["b.ts"]) = Returned st'
      ∧ currentBranchState st' = Some cur'
      ∧ committed demoClock "fix" (demoBranch ["b.ts"]) cur'.
Proof.
  split; [reflexivity|].
  destruct (handleCommit_atomic demoClock "fix" (demoState ["b.ts"])
              (demoBranch ["b.ts"])) as [(st' & cur' & H1 & _ & H2 & H3 & _) _].
  - reflexivity.
  - apply (bool_decide_unpack _). vm_compute. exact I.
  - exists st', cur'. exact (conj H1 (conj H2 H3)).
Defined.

(** C10 (commit frame).  A successful [handleCommit] keeps the shape of the
    tree, its folders and the id, name, language and content of every file
    (the trees are equal once statuses are forgotten); file by file, a file
    whose id was not staged is left as it was, status included, and a file
    whose id was staged differs at most in its status.  The snapshots of the
    other branches are untouched. *)
Theorem handleCommit_frame clk msg st cur :
  currentBranchState st = Some cur →
  stagedFiles cur ≠ ∅ →
  ∃ st' cur',
    handleCommit clk msg st = Returned st'
    ∧ currentBranchState st' = Some cur'
    ∧ eraseStatus (fileSystem cur') = eraseStatus (fileSystem cur)
    ∧ Forall2 (λ f f', id f' = id f ∧ name f' = name f
                       ∧ language f' = language f ∧ content f' = content f
                       ∧ (id f ∉ stagedFiles cur → f' = f))
        (files (fileSystem cur)) (files (fileSystem cur'))
    ∧ (∀ b, b ≠ currentBranch st → branchStates st' !! b = branchStates st !! b)
    ∧ activeFile st' = activeFile st.
Proof.
  intros Hcur Hstaged. eexists _, _.
  split; [by apply handleCommit_staged|].
  split; [apply currentBranchState_replaced|]. simpl.
  split; [apply eraseStatus_updateStatusesInTree|].
  split; [|split; [|done]].
  - rewrite files_updateStatusesInTree. apply Forall2_map_r.
    intros f _. unfold setStatus. case_decide; simpl; done.
  - intros b Hb. by rewrite lookup_insert_ne.
Qed.

Lemma handleCommit_frame_witness :
  ∃ st' cur',
    handleCommit demoClock "fix" (demoState ["b.ts"]) = Returned st'
    ∧ currentBranchState st' = Some cur'
    ∧ eraseStatus (fileSystem cur') = eraseStatus demoTree.
Proof.
  destruct (handleCommit_frame demoClock "fix" (demoState ["b.ts"])
              (demoBranch ["b.ts"])) as (st' & cur' & H1 & H2 & H3 & _).
  - reflexivity.
  - apply (bool_decide_unpack _). vm_compute. exact I.
  - exists st', cur'. exact (conj H1 (conj H2 H3)).
Defined.

(** A blank message is only refused by the panel: [handleCommit] of [App]
    itself does not look at the message. *)
Example handleCommit_blank_message :
  ∃ st' cur',
    handleCommit demoClock "" (demoState ["b.ts"]) = Returned st'
    ∧ currentBranchState st' = Some cur'
    ∧ (message <$> commits cur') = [""].
Proof.
  eexists _, _. split; [by apply handleCommit_staged|].
  split; [apply currentBranchState_replaced|done].
Qed.

(** C2 (commit rejection).  Through the commit button of the panel, an empty
    message, more generally a blank one, and any message while nothing is
    staged are refused: the handler returns normally and the whole state,
    hence the staged set, the tree and the commit log of the current branch,
    is as before.  Called directly with nothing staged, [handleCommit] of
    [App] refuses with an alert and the state is as before too. *)
Theorem commit_rejected clk msg st cur :
  currentBranchState st = Some cur →
  trim msg = "" ∨ stagedFiles cur = ∅ →
  GitPanel_handleCommit clk msg st = Returned st
  ∧ GitPanel_handleCommit clk "" st = Returned st
  ∧ currentBranchState (stateOf (GitPanel_handleCommit clk msg st)) = Some cur
  ∧ (stagedFiles cur = ∅ →
     handleCommit clk msg st = Alerted "No files staged to commit." st).
Proof.
  intros Hcur Hrej.
  assert (GitPanel_handleCommit clk msg st = Returned st) as Hmsg.
  { unfold GitPanel_handleCommit. rewrite (render_Some _ _ _ Hcur).
    rewrite decide_False; [done|]. intros [Hblank Hlen].
    destruct Hrej as [?|Hempty]; [done|].
    unfold stagedFileItems in Hlen.
    rewrite Hempty, elements_empty in Hlen. simpl in Hlen. lia. }
  split; [done|]. split; [|split].
  - unfold GitPanel_handleCommit. rewrite (render_Some _ _ _ Hcur).
    rewrite decide_False; [done|]. by intros [Hblank _].
  - by rewrite Hmsg.
  - intros Hempty. by apply (handleCommit_nothing_staged _ _ _ cur).
Qed.

Lemma commit_rejected_witness :
  GitPanel_handleCommit demoClock "fix" (demoState []) = Returned (demoState [])
  ∧ GitPanel_handleCommit demoClock "" (demoState []) = Returned (demoState [])
  ∧ handleCommit demoClock "fix" (demoState [])
    = Alerted "No files staged to commit." (demoState []).
Proof.
  destruct (commit_rejected demoClock "fix" (demoState []) (demoBranch []))
    as (H1 & H2 & _ & H3).
  - reflexivity.
  - right. reflexivity.
  - exact (conj H1 (conj H2 (H3 eq_refl))).
Defined.

(** ** Branches *)

Lemma handleCreateBranch_run name st cur :
  currentBranchState st = Some cur →
  name ≠ "" →
  branchStates st !! name = None →
  name ∉ Object_prototype →
  handleCreateBranch (Some name) st
  = Returned (setCurrentBranch name
                (setBranchStates (λ prev, <[name := cur]> prev) st)).
Proof.
  intros Hcur Hname Hfree Hproto. unfold handleCreateBranch.
  rewrite (render_Some _ _ _ Hcur). destruct name; [done|].
  rewrite decide_False; [done|].
  intros [[bs Hbs]|Hin]; [congruence|done].
Qed.

Lemma handleCreateBranch_refused name st cur :
  currentBranchState st = Some cur →
  name = "" ∨ is_Some (branchStates st !! name) ∨ name ∈ Object_prototype →
  ∃ text, handleCreateBranch (Some name) st = Alerted text st.
Proof.
  intros Hcur Hrefused. unfold handleCreateBranch.
  rewrite (render_Some _ _ _ Hcur).
  destruct name as [|a name]; [by eexists|].
  destruct Hrefused as [?|Hpresent]; [done|].
  rewrite decide_True by done. by eexists.
Qed.

(** What [handleCreateBranch] does on every name.  With an empty name, a
    key of the store or a name inherited from [Object.prototype] it refuses
    with an alert and the state is unchanged.  With any other name it
    returns normally, the store gains that one key, bound to the very
    snapshot of the branch that was current (same tree, same staged set,
    same commit log), every other key keeps its snapshot, and the new
    branch is current. *)
Lemma handleCreateBranch_fork name st cur :
  currentBranchState st = Some cur →
  (name = "" ∨ is_Some (branchStates st !! name) ∨ name ∈ Object_prototype →
   ∃ text, handleCreateBranch (Some name) st = Alerted text st)
  ∧ (name ≠ "" → branchStates st !! name = None → name ∉ Object_prototype →
     ∃ st',
       handleCreateBranch (Some name) st = Returned st'
       ∧ branchStates st' = <[name := cur]> (branchStates st)
       ∧ (∃ forked, branchStates st' !! name = Some forked
                    ∧ fileSystem forked = fileSystem cur
                    ∧ stagedFiles forked = stagedFiles cur
                    ∧ commits forked = commits cur)
       ∧ (∀ b, b ≠ name → branchStates st' !! b = branchStates st !! b)
       ∧ currentBranch st' = name
       ∧ currentBranchState st' = Some cur).
Proof.
  intros Hcur. split; [by apply (handleCreateBranch_refused _ _ cur)|].
  intros Hname Hfree Hproto. eexists.
  split; [by apply (handleCreateBranch_run _ _ cur)|]. simpl.
  split; [done|]. split; [|split; [|split]].
  - exists cur. by rewrite lookup_insert_eq.
  - intros b Hb. by rewrite lookup_insert_ne.
  - done.
  - unfold currentBranchState. simpl. apply lookup_insert_eq.
Qed.

(** C3: the code departs from it on the names every object inherits.
    [constructor] is not empty and names no branch of the store, yet
    [branchStates["constructor"]] is truthy, so [handleCreateBranch] alerts
    that the branch already exists and creates nothing. *)
Theorem handleCreateBranch_inherited_name_refused :
  "constructor" ≠ ""
  ∧ branchStates (demoState []) !! "constructor" = None
  ∧ handleCreateBranch (Some "constructor") (demoState [])
    = Alerted "Branch already exists." (demoState [])
  ∧ branchStates (stateOf (handleCreateBranch (Some "constructor") (demoState [])))
      !! "constructor" = None.
Proof. split; [discriminate|]. split; [reflexivity|]. split; reflexivity. Qed.

(** Cancelling the prompt is refused like the empty name. *)
Lemma handleCreateBranch_cancel st cur :
  currentBranchState st = Some cur →
  handleCreateBranch None st = Alerted "Invalid branch name." st.
Proof. intros Hcur. unfold handleCreateBranch. by rewrite (render_Some _ _ _ Hcur). Qed.

(** *** Staging one file *)

Lemma handleStage_run fileId st cur :
  currentBranchState st = Some cur →
  handleStage fileId st
  = Returned
      (setBranchStates
         (λ m, <[currentBranch st :=
                   {| fileSystem := fileSystem cur;
                      stagedFiles := {[fileId]} ∪ stagedFiles cur;
                      commits := commits cur |}]> m) st).
Proof.
  intros Hcur. unfold handleStage. rewrite (render_Some _ _ _ Hcur).
  by erewrite setCurrentBranchState_Some.
Qed.

Lemma setBranchStates_id st cur :
  currentBranchState st = Some cur →
  setBranchStates (λ m, <[currentBranch st := cur]> m) st = st.
Proof.
  intros Hcur. destruct st as [m b a]. unfold setBranchStates. simpl.
  f_equal. by apply insert_id.
Qed.

(** C5 as specified fails: staging an id that no file of the tree
    carries is not a no-op, the id ends up in the staged set. *)
Lemma handleStage_missing_file_staged :
  findFileInTree (fileSystem (demoBranch [])) "ghost" = None
  ∧ ("ghost" ∉ stagedFiles (demoBranch []))
  ∧ ∃ st' cur',
      handleStage "ghost" (demoState []) = Returned st'
      ∧ currentBranchState st' = Some cur'
      ∧ "ghost" ∈ stagedFiles cur'
      ∧ st' ≠ demoState [].
Proof.
  split; [reflexivity|]. split; [by vm_compute|].
  eexists _, _. split; [by apply (handleStage_run _ _ (demoBranch []))|].
  split; [apply currentBranchState_replaced|].
  split; [by apply elem_of_union_l, elem_of_singleton|].
  intros Heq.
  apply (f_equal (λ s, stagedFiles <$> currentBranchState s)) in Heq.
  rewrite currentBranchState_replaced in Heq.
  change (currentBranchState (demoState [])) with (Some (demoBranch [])) in Heq.
  apply (inj Some) in Heq.
  assert ("ghost" ∈ stagedFiles (demoBranch [])) as Hin
    by (rewrite <- Heq; by apply elem_of_union_l, elem_of_singleton).
  revert Hin. by vm_compute.
Qed.

(** C5 (stage), amended.  [handleStage] returns normally for every id,
    whether or not a file of the tree carries it, and leaves the staged set
    of the current branch with that id added, tree and log untouched.  It is
    a no-op exactly when the id was already staged; staging is idempotent. *)
Theorem handleStage_adds fileId st cur :
  currentBranchState st = Some cur →
  ∃ st' cur',
    handleStage fileId st = Returned st'
    ∧ currentBranchState st' = Some cur'
    ∧ stagedFiles cur' = {[fileId]} ∪ stagedFiles cur
    ∧ fileSystem cur' = fileSystem cur
    ∧ commits cur' = commits cur
    ∧ (st' = st ↔ fileId ∈ stagedFiles cur)
    ∧ handleStage fileId st' = Returned st'.
Proof.
  intros Hcur. eexists _, _. split; [by apply handleStage_run|].
  split; [apply currentBranchState_replaced|].
  split; [done|]. split; [done|]. split; [done|]. split; [split|].
  - intros Heq. apply (f_equal currentBranchState) in Heq.
    rewrite currentBranchState_replaced, Hcur in Heq.
    injection Heq as Heq. apply (f_equal stagedFiles) in Heq. simpl in Heq.
    rewrite <- Heq. apply elem_of_union_l. by apply elem_of_singleton.
  - intros Hin. rewrite <- (setBranchStates_id st cur Hcur) at 2.
    rewrite (subseteq_union_1_L {[fileId]} (stagedFiles cur))
      by by apply singleton_subseteq_l.
    by destruct cur.
  - erewrite handleStage_run by apply currentBranchState_replaced.
    unfold setBranchStates. simpl. rewrite insert_insert_eq.
    by rewrite (assoc_L (∪)), (idemp_L (∪)).
Qed.

Lemma handleStage_adds_witness :
  ∃ st' cur',
    handleStage "ghost" (demoState []) = Returned st'
    ∧ currentBranchState st' = Some cur'
    ∧ stagedFiles cur' = {[ "ghost" ]} ∪ stagedFiles (demoBranch []).
Proof.
  destruct (handleStage_adds "ghost" (demoState []) (demoBranch []))
    as (st' & cur' & H1 & H2 & H3 & _); [reflexivity|].
  exists st', cur'. exact (conj H1 (conj H2 H3)).
Defined.

(** *** Switching branch *)

Lemma handleSwitchBranch_found name st cur target active found :
  currentBranchState st = Some cur →
  name ≠ currentBranch st →
  branchStates st !! name = Some target →
  activeFile st = Some active →
  findFileInTree (fileSystem target) (id active) = Some found →
  handleSwitchBranch name st
  = Returned (setActiveFile (λ _, Some found) (setCurrentBranch name st)).
Proof.
  intros Hcur Hname Htarget Hactive Hfound. unfold handleSwitchBranch.
  rewrite (render_Some _ _ _ Hcur), decide_False by done.
  by rewrite Htarget, Hactive, Hfound.
Qed.

(** Whatever it is given, [handleSwitchBranch] writes to no snapshot. *)
Lemma handleSwitchBranch_store name st :
  branchStates (stateOf (handleSwitchBranch name st)) = branchStates st.
Proof.
  unfold handleSwitchBranch, render.
  destruct (currentBranchState st); [|done].
  case_decide; [done|].
  destruct (branchStates st !! name) as [target|]; [|done].
  by destruct (match activeFile st with
               | Some active => findFileInTree (fileSystem target) (id active)
               | None => findFileInTree (fileSystem target) "user-service-ts"
               end), (fileSystem target).
Qed.

(** C6 as specified fails: a name that is not a key of the store
    is not ignored.  The handler has already recorded it as the current
    branch when reading [branchStates[branchName].fileSystem] throws. *)
Lemma handleSwitchBranch_unknown_name_throws :
  branchStates (demoState []) !! "ghost" = None
  ∧ handleSwitchBranch "ghost" (demoState [])
    = TypeError (setCurrentBranch "ghost" (demoState []))
  ∧ stateOf (handleSwitchBranch "ghost" (demoState [])) ≠ demoState [].
Proof.
  split; [reflexivity|]. split; [reflexivity|].
  intros Heq. apply (f_equal currentBranch) in Heq. discriminate Heq.
Qed.

(** C6 (switchBranch), amended.  With the name of the current branch
    [handleSwitchBranch] returns with the state unchanged.  With another key
    of the store it makes that branch current and changes no snapshot (it
    returns normally whenever the root of that branch is a folder).  With a
    name that is not a key of the store it is not a no-op: it records the
    name as current and throws; the snapshots are untouched there too. *)
Theorem handleSwitchBranch_cases name st cur :
  currentBranchState st = Some cur →
  (name = currentBranch st → handleSwitchBranch name st = Returned st)
  ∧ (∀ target,
       name ≠ currentBranch st →
       branchStates st !! name = Some target →
       branchStates (stateOf (handleSwitchBranch name st)) = branchStates st
       ∧ currentBranch (stateOf (handleSwitchBranch name st)) = name
       ∧ currentBranchState (stateOf (handleSwitchBranch name st)) = Some target
       ∧ (isFolder (fileSystem target) →
          ∃ st', handleSwitchBranch name st = Returned st'))
  ∧ (branchStates st !! name = None →
     handleSwitchBranch name st = TypeError (setCurrentBranch name st)
     ∧ stateOf (handleSwitchBranch name st) ≠ st
     ∧ branchStates (stateOf (handleSwitchBranch name st)) = branchStates st).
Proof.
  intros Hcur. split; [|split].
  - intros Hname. unfold handleSwitchBranch.
    by rewrite (render_Some _ _ _ Hcur), decide_True.
  - intros target Hname Htarget.
    split; [apply handleSwitchBranch_store|].
    unfold handleSwitchBranch, currentBranchState.
    rewrite (render_Some _ _ _ Hcur), decide_False, Htarget by done.
    destruct (match activeFile st with
              | Some active => findFileInTree (fileSystem target) (id active)
              | None => findFileInTree (fileSystem target) "user-service-ts"
              end) as [found|], (fileSystem target) as [f|i n children];
      simpl; (split; [done|]); (split; [done|]); intros Hroot;
      first [destruct Hroot; fail | by eexists].
  - intros Hnone.
    assert (name ≠ currentBranch st) as Hname.
    { intros ->. unfold currentBranchState in Hcur. congruence. }
    assert (handleSwitchBranch name st = TypeError (setCurrentBranch name st))
      as Hrun.
    { unfold handleSwitchBranch.
      by rewrite (render_Some _ _ _ Hcur), decide_False, Hnone. }
    rewrite Hrun. simpl. split; [done|]. split; [|done].
    intros Heq. by apply (f_equal currentBranch) in Heq.
Qed.

Lemma handleSwitchBranch_cases_witness :
  handleSwitchBranch "main" (demoState ["b.ts"]) = Returned (demoState ["b.ts"])
  ∧ handleSwitchBranch "ghost" (demoState ["b.ts"])
    = TypeError (setCurrentBranch "ghost" (demoState ["b.ts"])).
Proof.
  split.
  - apply (handleSwitchBranch_cases "main" (demoState ["b.ts"]) (demoBranch ["b.ts"]));
      reflexivity.
  - apply (handleSwitchBranch_cases "ghost" (demoState ["b.ts"]) (demoBranch ["b.ts"]));
      reflexivity.
Defined.

(** ** Every handler writes to the current branch only *)

Lemma touchesCurrentOnly_refl st : touchesCurrentOnly st st.
Proof. by split. Qed.

Lemma touchesCurrentOnly_trans st1 st2 st3 :
  touchesCurrentOnly st1 st2 → touchesCurrentOnly st2 st3 →
  touchesCurrentOnly st1 st3.
Proof.
  intros [Hb12 Hm12] [Hb23 Hm23]. split; [congruence|].
  intros b Hb. rewrite Hm23, Hm12; congruence.
Qed.

Lemma setCurrentBranchState_inv updater st st' :
  setCurrentBranchState updater st = Some st' →
  ∃ prev next,
    currentBranchState st = Some prev
    ∧ updater prev = Some next
    ∧ st' = setBranchStates (λ m, <[currentBranch st := next]> m) st.
Proof.
  unfold setCurrentBranchState, currentBranchState.
  destruct (branchStates st !! currentBranch st) as [prev|]; [|done]. simpl.
  destruct (updater prev) as [next|] eqn:Hnext; [|done]. simpl.
  intros [= <-]. by exists prev, next.
Qed.

Lemma setCurrentBranchState_touches updater st st' :
  setCurrentBranchState updater st = Some st' → touchesCurrentOnly st st'.
Proof.
  intros (prev & next & _ & _ & ->)%setCurrentBranchState_inv.
  split; [done|]. intros b Hb. simpl. by rewrite lookup_insert_ne.
Qed.

Lemma finish_touches st queued :
  (∀ st', queued = Some st' → touchesCurrentOnly st st') →
  touchesCurrentOnly st (stateOf (finish st queued)).
Proof.
  destruct queued as [st'|]; simpl; [by auto|intros _; apply touchesCurrentOnly_refl].
Qed.

Lemma render_touches st handler :
  (∀ cur, currentBranchState st = Some cur →
          touchesCurrentOnly st (stateOf (handler cur))) →
  touchesCurrentOnly st (stateOf (render st handler)).
Proof.
  unfold render. destruct (currentBranchState st); [by auto|].
  intros _. apply touchesCurrentOnly_refl.
Qed.

Lemma handleCommit_touches clk msg st :
  touchesCurrentOnly st (stateOf (handleCommit clk msg st)).
Proof.
  apply render_touches. intros cur _.
  case_decide; [apply touchesCurrentOnly_refl|].
  apply finish_touches. intros st'. apply setCurrentBranchState_touches.
Qed.

Lemma step_branchLocal clk e st :
  branchLocal e → touchesCurrentOnly st (stateOf (step clk e st)).
Proof.
  destruct e as [file|filename lang|folderName|value|fileId|fileId| |message
                 |commitMessage|newBranchName|branchName]; simpl; try done;
    intros _.
  - apply render_touches. by intros cur _.
  - apply render_touches. intros cur _.
    destruct filename as [[|a filename]|]; try apply touchesCurrentOnly_refl.
    apply finish_touches. intros st' Hq.
    apply bind_Some in Hq as (st1 & Hst1%setCurrentBranchState_touches & [= <-]).
    done.
  - apply render_touches. intros cur _.
    destruct folderName as [[|a folderName]|]; try apply touchesCurrentOnly_refl.
    apply finish_touches. intros st'. apply setCurrentBranchState_touches.
  - apply render_touches. intros cur _.
    destruct value as [value|], (activeFile st) as [active|];
      try apply touchesCurrentOnly_refl.
    apply finish_touches. intros st' Hq.
    apply bind_Some in Hq as (st1 & Hst1%setCurrentBranchState_touches & [= <-]).
    done.
  - apply render_touches. intros cur _.
    apply finish_touches. intros st'. apply setCurrentBranchState_touches.
  - apply render_touches. intros cur _.
    apply finish_touches. intros st'. apply setCurrentBranchState_touches.
  - apply render_touches. intros cur _.
    apply finish_touches. intros st'. apply setCurrentBranchState_touches.
  - apply handleCommit_touches.
  - apply render_touches. intros cur _.
    case_decide; [apply handleCommit_touches|apply touchesCurrentOnly_refl].
Qed.

Lemma exec_branchLocal events st :
  Forall (λ ce : Clock * Event, branchLocal ce.2) events →
  touchesCurrentOnly st (stateOf (exec events st)).
Proof.
  intros Hlocal. revert st.
  induction Hlocal as [|[clk e] rest He _ IH]; intros st; simpl.
  - apply touchesCurrentOnly_refl.
  - pose proof (step_branchLocal clk e st He) as Hstep.
    destruct (step clk e st) as [st'|text st'|st']; simpl in *;
      [eapply touchesCurrentOnly_trans; [exact Hstep|apply IH]
      |eapply touchesCurrentOnly_trans; [exact Hstep|apply IH]
      |exact Hstep].
Qed.

(** ** Editing *)

Lemma id_patch fileId updates f :
  p_id updates = None → id (patch fileId updates f) = id f.
Proof. intros Hid. unfold patch, spread. case_decide; [|done]. simpl. by rewrite Hid. Qed.

(** An edit that keeps ids does not change which file an id resolves to. *)
Lemma findFileInTree_updateFileInTree item fileId updates i :
  p_id updates = None →
  findFileInTree (updateFileInTree item fileId updates) i
  = patch fileId updates <$> findFileInTree item i.
Proof.
  intros Hid. rewrite !findFileInTree_files, files_updateFileInTree.
  induction (files item) as [|f l IHl]; [done|]. simpl.
  rewrite !filter_cons, id_patch by done.
  case_decide; [done|apply IHl].
Qed.

Lemma handleCodeChange_run value st cur active :
  currentBranchState st = Some cur →
  activeFile st = Some active →
  let updates :=
    {| p_id := None; p_name := None; p_language := None;
       p_content := Some value;
       p_gitStatus := if decide (gitStatus active = unmodified)
                      then Some modified else None |} in
  handleCodeChange (Some value) st
  = Returned
      (setActiveFile (λ _, Some (spread active updates))
         (setBranchStates
            (λ m, <[currentBranch st :=
                      {| fileSystem := updateFileInTree (fileSystem cur) (id active) updates;
                         stagedFiles := stagedFiles cur;
                         commits := commits cur |}]> m) st)).
Proof.
  intros Hcur Hactive updates. unfold handleCodeChange.
  rewrite (render_Some _ _ _ Hcur), Hactive.
  erewrite setCurrentBranchState_Some; [|done|reflexivity].
  simpl. unfold setActiveFile, setBranchStates. simpl. by rewrite Hactive.
Qed.

(** C4 (branch isolation).  Take any state, call its current branch the
    parent, and let [b2] be a name with which a branch can be created: not
    empty, not yet a branch, not inherited from [Object.prototype].
    After [handleCreateBranch] with [b2] and an edit of the open file on
    [b2] (the edit is visible there: the file now has the new content), the
    snapshot of the parent is the one it had; switching back to the parent
    makes it current with that snapshot, and the open file is shown as the
    parent has it, with its content and status of before the edit.  More
    generally, no sequence of events handled on [b2] without leaving it
    changes the snapshot of the parent. *)
Theorem branch_isolation b2 value st cur active found :
  currentBranchState st = Some cur →
  b2 ≠ "" →
  branchStates st !! b2 = None →
  b2 ∉ Object_prototype →
  activeFile st = Some active →
  findFileInTree (fileSystem cur) (id active) = Some found →
  ∃ st1 st2 st3,
    handleCreateBranch (Some b2) st = Returned st1
    ∧ handleCodeChange (Some value) st1 = Returned st2
    ∧ currentBranch st2 = b2
    ∧ (∃ forked edited,
         currentBranchState st2 = Some forked
         ∧ findFileInTree (fileSystem forked) (id active) = Some edited
         ∧ content edited = value)
    ∧ branchStates st2 !! currentBranch st = Some cur
    ∧ handleSwitchBranch (currentBranch st) st2 = Returned st3
    ∧ currentBranch st3 = currentBranch st
    ∧ currentBranchState st3 = Some cur
    ∧ activeFile st3 = Some found
    ∧ (∀ events,
         Forall (λ ce : Clock * Event, branchLocal ce.2) events →
         branchStates (stateOf (exec events st1)) !! currentBranch st = Some cur).
Proof.
  intros Hcur Hname Hfree Hproto Hactive Hfound.
  assert (currentBranch st ≠ b2) as Hparent.
  { intros Heq. unfold currentBranchState in Hcur. congruence. }
  pose proof (handleCreateBranch_run b2 st cur Hcur Hname Hfree Hproto) as Hst1.
  set (st1 := setCurrentBranch b2
                (setBranchStates (λ prev, <[b2 := cur]> prev) st)) in *.
  assert (currentBranchState st1 = Some cur) as Hcur1
    by (unfold currentBranchState; simpl; apply lookup_insert_eq).
  assert (∀ b, b ≠ b2 → branchStates st1 !! b = branchStates st !! b) as Hother
    by (intros b Hb; simpl; by rewrite lookup_insert_ne).
  assert (activeFile st1 = Some active) as Hactive1 by done.
  pose proof (handleCodeChange_run value st1 cur active Hcur1 Hactive1) as Hst2.
  simpl in Hst2.
  eexists st1, _, _. split; [exact Hst1|]. split; [exact Hst2|].
  split; [done|]. split; [|split; [|split; [|split; [|split; [|split]]]]].
  - eexists _, _. split; [unfold currentBranchState; simpl; apply lookup_insert_eq|].
    simpl. rewrite findFileInTree_updateFileInTree, Hfound by done.
    split; [done|]. unfold patch.
    apply findFileInTree_Some in Hfound as [_ ->].
    by rewrite decide_True.
  - simpl. rewrite lookup_insert_ne by congruence. by rewrite Hother.
  - eapply (handleSwitchBranch_found _ _ _ cur _ found).
    + unfold currentBranchState. simpl. apply lookup_insert_eq.
    + simpl. congruence.
    + simpl. rewrite lookup_insert_ne by congruence. by rewrite Hother.
    + done.
    + exact Hfound.
  - done.
  - unfold currentBranchState. simpl.
    rewrite lookup_insert_ne by congruence. by rewrite Hother.
  - done.
  - intros events Hlocal.
    destruct (exec_branchLocal events st1 Hlocal) as [_ Hframe].
    rewrite Hframe by exact Hparent. by rewrite Hother.
Qed.

Lemma branch_isolation_witness :
  ∃ st1 st2 st3,
    handleCreateBranch (Some "b2") (demoState []) = Returned st1
    ∧ handleCodeChange (Some "let a = 42;") st1 = Returned st2
    ∧ handleSwitchBranch "main" st2 = Returned st3
    ∧ currentBranchState st3 = Some (demoBranch [])
    ∧ activeFile st3 = Some a_ts.
Proof.
  destruct (branch_isolation "b2" "let a = 42;" (demoState []) (demoBranch [])
              a_ts a_ts)
    as (st1 & st2 & st3 & H1 & H2 & _ & _ & _ & H3 & _ & H4 & H5 & _).
  - reflexivity.
  - discriminate.
  - reflexivity.
  - apply (bool_decide_unpack _). vm_compute. exact I.
  - reflexivity.
  - reflexivity.
  - exists st1, st2, st3. exact (conj H1 (conj H2 (conj H3 (conj H4 H5)))).
Defined.

(** ** The staged-set invariant under the events *)








Lemma files_appended i n children item :
  files (Folder i n (children ++ [item])) = files (Folder i n children) ++ files item.
Proof. simpl. rewrite flat_map_app. simpl. by rewrite app_nil_r. Qed.






(** The panel only offers to stage the files of [unstagedFiles]; their ids
    meet the condition under which [stage] keeps the invariant. *)
Lemma unstagedFiles_stagesChangedFile st cur f :
  currentBranchState st = Some cur →
  f ∈ unstagedFiles cur →
  stagesChangedFile st (OnStage (id f)).
Proof.
  intros Hcur Hf cur' Hcur'. assert (cur' = cur) as -> by congruence.
  unfold unstagedFiles in Hf. apply list_elem_of_filter in Hf as [_ Hf].
  rewrite findChangedFiles_files in Hf. simpl in Hf.
  apply list_elem_of_filter in Hf as [Hch Hf]. by exists f.
Qed.

(** When the ids of the files of a tree are pairwise distinct, a staged id
    of a consistent snapshot is resolved by [findFileInTree] to a changed
    file. *)
Lemma stagedOk_resolves bs i :
  NoDup (map id (files (fileSystem bs))) →
  stagedOk bs →
  i ∈ stagedFiles bs →
  ∃ f, findFileInTree (fileSystem bs) i = Some f ∧ changed f.
Proof.
  intros Hnodup Hok Hi. destruct (Hok i Hi) as (f & Hf & <- & Hch).
  exists f. split; [|done]. rewrite findFileInTree_files.
  induction (files (fileSystem bs)) as [|g l IHl]; [by apply not_elem_of_nil in Hf|].
  simpl in Hnodup. apply NoDup_cons in Hnodup as [Hg Hnodup].
  rewrite filter_cons. apply elem_of_cons in Hf as [<-|Hf].
  - by rewrite decide_True.
  - rewrite decide_False; [by apply IHl|].
    intros Heq. apply Hg. rewrite Heq.
    by apply list_elem_of_In, in_map, list_elem_of_In.
Qed.

(** ** The panel and the engine together *)

(** With a non-blank message and a staged file that resolves, the commit
    button hands the trimmed message to [handleCommit]. *)
Lemma GitPanel_handleCommit_forwards clk commitMessage st cur :
  currentBranchState st = Some cur →
  trim commitMessage ≠ "" →
  stagedFileItems cur ≠ [] →
  GitPanel_handleCommit clk commitMessage st
  = handleCommit clk (trim commitMessage) st.
Proof.
  intros Hcur Hmsg Hitems. unfold GitPanel_handleCommit.
  rewrite (render_Some _ _ _ Hcur), decide_True; [done|].
  split; [done|]. destruct (stagedFileItems cur); [done|simpl; lia].
Qed.

(** The scenario of the specification: [a.ts] is edited, staged and
    committed with the message [fix]. *)
Example edit_stage_commit :
  ∃ st' cur',
    exec [(demoClock, OnChange (Some "let a = 2;"));
          (demoClock, OnStage "a.ts");
          (demoClock, CommitButton " fix ")] (demoState []) = Returned st'
    ∧ currentBranchState st' = Some cur'
    ∧ stagedFiles cur' = ∅
    ∧ findFileInTree (fileSystem cur') "a.ts"
      = Some {| id := "a.ts"; name := "a.ts"; language := "typescript";
                content := "let a = 2;"; gitStatus := unmodified |}
    ∧ (message <$> commits cur') = ["fix"].
Proof.
  eexists _, _. split; [vm_compute; reflexivity|].
  split; [vm_compute; reflexivity|]. by vm_compute.
Qed.

(** ** More on the tree helpers *)

Lemma head_filter_Some {A} (P : A → Prop) `{!∀ x, Decision (P x)}
    (l : list A) (x : A) :
  head (filter P l) = Some x
  ↔ ∃ before after, l = before ++ x :: after ∧ P x ∧ ∀ y, y ∈ before → ¬ P y.
Proof.
  induction l as [|a l IHl].
  - split; [done|]. intros (before & after & Heq & _). by destruct before.
  - rewrite filter_cons. destruct (decide (P a)) as [Ha|Ha]; simpl.
    + split.
      * intros [= ->]. exists [], l. split; [done|]. split; [done|].
        by intros y ?%not_elem_of_nil.
      * intros ([|b before] & after & Heq & Hx & Hbefore); simplify_eq/=; [done|].
        destruct (Hbefore b); [left|done].
    + rewrite IHl. split.
      * intros (before & after & -> & Hx & Hbefore).
        exists (a :: before), after. split; [done|]. split; [done|].
        intros y [->|Hy]%elem_of_cons; auto.
      * intros ([|b before] & after & Heq & Hx & Hbefore); simplify_eq/=; [done|].
        exists before, after. split; [done|]. split; [done|].
        intros y Hy. apply Hbefore. by right.
Qed.

(** [findFileInTree] returns a file exactly when it is the first file of
    the tree, in pre-order, that carries the id. *)
Theorem findFileInTree_first_match tree fileId f :
  findFileInTree tree fileId = Some f
  ↔ ∃ before after,
      files tree = before ++ f :: after
      ∧ id f = fileId
      ∧ ∀ g, g ∈ before → id g ≠ fileId.
Proof.
  rewrite findFileInTree_files.
  apply (head_filter_Some (λ g, id g = fileId)).
Qed.

(** Looking a file up after [updateFileInTree] with a patch that keeps ids:
    the patched id resolves to the patched file, every other id resolves as
    before. *)
Theorem findFileInTree_after_update tree fileId updates i :
  p_id updates = None →
  findFileInTree (updateFileInTree tree fileId updates) i
  = if decide (i = fileId)
    then (λ f, spread f updates) <$> findFileInTree tree i
    else findFileInTree tree i.
Proof.
  intros Hid. rewrite findFileInTree_updateFileInTree by done.
  destruct (findFileInTree tree i) as [f|] eqn:Hfind; [|by case_decide].
  apply findFileInTree_Some in Hfind as [_ <-]. simpl. unfold patch.
  by destruct (decide (id f = fileId)).
Qed.

Lemma findFileInTree_after_update_witness :
  findFileInTree
    (updateFileInTree demoTree "b.ts"
       {| p_id := None; p_name := None; p_language := None;
          p_content := Some "let b = 3;"; p_gitStatus := None |}) "b.ts"
  = Some {| id := "b.ts"; name := "b.ts"; language := "typescript";
            content := "let b = 3;"; gitStatus := modified |}.
Proof.
  rewrite (findFileInTree_after_update demoTree "b.ts"); reflexivity.
Defined.

(** [updateFileInTree] patches every file that carries the id, not only
    the one [findFileInTree] would return, and hands every other file on as
    it is, in the same order. *)
Theorem updateFileInTree_every_match tree fileId updates :
  Forall2 (λ f f', f' = if decide (id f = fileId) then spread f updates else f)
    (files tree) (files (updateFileInTree tree fileId updates)).
Proof.
  rewrite files_updateFileInTree. apply Forall2_map_r. by intros f _.
Qed.

Lemma spread_spread f updates : spread (spread f updates) updates = spread f updates.
Proof. destruct updates as [[?|] [?|] [?|] [?|] [?|]]; by destruct f. Qed.

(** Applying the same patch to the same id twice is the same as applying
    it once. *)
Theorem updateFileInTree_idempotent tree fileId updates :
  updateFileInTree (updateFileInTree tree fileId updates) fileId updates
  = updateFileInTree tree fileId updates.
Proof.
  induction tree as [f|i n children IH] using FileSystemItem_ind; simpl.
  - destruct (decide (id f = fileId)) as [Hf|Hf]; simpl.
    + case_decide; [by rewrite spread_spread|done].
    + by rewrite decide_False.
  - f_equal. induction IH as [|c rest Hc _ IHrest]; [done|].
    simpl. by rewrite Hc, IHrest.
Qed.

(** The accumulator of [findChangedFiles] is only appended to, and what is
    appended are the files of the tree whose status is not [unmodified]. *)
Theorem findChangedFiles_spec tree allFiles :
  findChangedFiles tree allFiles = allFiles ++ findChangedFiles tree []
  ∧ ∀ f, f ∈ findChangedFiles tree []
         ↔ f ∈ files tree ∧ gitStatus f ≠ unmodified.
Proof.
  split.
  - by rewrite (findChangedFiles_files tree allFiles), (findChangedFiles_files tree []).
  - intros f. rewrite findChangedFiles_files. simpl.
    rewrite list_elem_of_filter. unfold changed. tauto.
Qed.

(** No-op law for statuses: when no file of the tree carries one of the
    ids, [updateStatusesInTree] returns the tree it was given. *)
Theorem updateStatusesInTree_unknown_ids tree fileIds newStatus :
  (∀ f, f ∈ files tree → id f ∉ fileIds) →
  updateStatusesInTree tree fileIds newStatus = tree.
Proof.
  induction tree as [f|i n children IH] using FileSystemItem_ind;
    simpl; intros Habs.
  - case_decide as Hid; [|done]. destruct (Habs f); [left|done].
  - f_equal. induction IH as [|c rest Hc _ IHrest]; [done|].
    simpl in *. rewrite Hc, IHrest; [done| |];
      intros f Hf; apply Habs, elem_of_app; auto.
Qed.

Lemma updateStatusesInTree_unknown_ids_witness :
  updateStatusesInTree demoTree {[ "ghost" ]} unmodified = demoTree.
Proof.
  apply updateStatusesInTree_unknown_ids.
  intros f Hf Hin. apply elem_of_singleton in Hin.
  simpl in Hf.
  apply elem_of_cons in Hf as [->|Hf]; [discriminate Hin|].
  apply elem_of_cons in Hf as [->|Hf]; [discriminate Hin|].
  by apply not_elem_of_nil in Hf.
Defined.

Lemma changed_setStatus (fileIds : gset string) f :
  changed (setStatus fileIds unmodified f) ↔ changed f ∧ id f ∉ fileIds.
Proof.
  unfold setStatus, changed. destruct (decide (id f ∈ fileIds)); simpl; tauto.
Qed.

Lemma setStatus_other (fileIds : gset string) newStatus f :
  id f ∉ fileIds → setStatus fileIds newStatus f = f.
Proof. intros Hout. unfold setStatus. by rewrite decide_False. Qed.

Lemma filter_map_setStatus (fileIds : gset string) (l : list FileItem) :
  filter changed (map (setStatus fileIds unmodified) l)
  = filter (λ f, id f ∉ fileIds) (filter changed l).
Proof.
  induction l as [|f l IHl]; [done|]. simpl map.
  rewrite (filter_cons changed (setStatus fileIds unmodified f)), IHl.
  rewrite (filter_cons changed f l).
  destruct (decide (changed (setStatus fileIds unmodified f))) as [Hch|Hch];
    rewrite changed_setStatus in Hch.
  - destruct Hch as [Hch Hout].
    rewrite (decide_True (P := changed f)) by done.
    rewrite filter_cons, decide_True by done.
    by rewrite setStatus_other.
  - destruct (decide (changed f)) as [Hf|Hf]; [|done].
    rewrite filter_cons, decide_False; [done|]. tauto.
Qed.

(** After [updateStatusesInTree] to [unmodified], the changed files are the
    files that were changed before and whose id is not in the set, in the
    same order. *)
Theorem findChangedFiles_after_updateStatuses tree fileIds :
  findChangedFiles (updateStatusesInTree tree fileIds unmodified) []
  = filter (λ f, id f ∉ fileIds) (findChangedFiles tree []).
Proof.
  rewrite !findChangedFiles_files, files_updateStatusesInTree. simpl.
  apply filter_map_setStatus.
Qed.

(** ** More on staging and committing *)

Lemma filter_none {A} (P : A → Prop) `{!∀ x, Decision (P x)} (l : list A) :
  (∀ x, x ∈ l → ¬ P x) → filter P l = [].
Proof.
  induction l as [|a l IHl]; intros Hno; [done|].
  rewrite filter_cons, decide_False by (apply Hno; left).
  apply IHl. intros x Hx. apply Hno. by right.
Qed.

Lemma filter_all {A} (P : A → Prop) `{!∀ x, Decision (P x)} (l : list A) :
  (∀ x, x ∈ l → P x) → filter P l = l.
Proof.
  induction l as [|a l IHl]; intros Hall; [done|].
  rewrite filter_cons, decide_True by (apply Hall; left).
  f_equal. apply IHl. intros x Hx. apply Hall. by right.
Qed.

Lemma findChangedFiles_after_commit cur :
  findChangedFiles
    (updateStatusesInTree (fileSystem cur) (stagedFiles cur) unmodified) []
  = unstagedFiles cur.
Proof.
  rewrite !findChangedFiles_files, files_updateStatusesInTree. simpl.
  unfold unstagedFiles. rewrite findChangedFiles_files. simpl.
  apply filter_map_setStatus.
Qed.

Lemma handleUnstage_run fileId st cur :
  currentBranchState st = Some cur →
  handleUnstage fileId st
  = Returned
      (setBranchStates
         (λ m, <[currentBranch st :=
                   {| fileSystem := fileSystem cur;
                      stagedFiles := stagedFiles cur ∖ {[fileId]};
                      commits := commits cur |}]> m) st).
Proof.
  intros Hcur. unfold handleUnstage. rewrite (render_Some _ _ _ Hcur).
  by erewrite setCurrentBranchState_Some.
Qed.

Lemma setBranchStates_current_eq st next next' :
  setBranchStates (λ m, <[currentBranch st := next]> m) st
  = setBranchStates (λ m, <[currentBranch st := next']> m) st →
  next = next'.
Proof.
  intros Heq. apply (f_equal currentBranchState) in Heq.
  rewrite !currentBranchState_replaced in Heq. by apply (inj Some) in Heq.
Qed.

(** [handleUnstage] takes the id out of the staged set and touches nothing
    else, in particular no status; it changes the state exactly when the id
    was staged, and it undoes a [handleStage] of an id that was not staged. *)
Theorem handleUnstage_removes fileId st cur :
  currentBranchState st = Some cur →
  ∃ st' cur',
    handleUnstage fileId st = Returned st'
    ∧ currentBranchState st' = Some cur'
    ∧ stagedFiles cur' = stagedFiles cur ∖ {[fileId]}
    ∧ fileSystem cur' = fileSystem cur
    ∧ commits cur' = commits cur
    ∧ (st' = st ↔ fileId ∉ stagedFiles cur)
    ∧ (fileId ∉ stagedFiles cur →
       ∃ staged, handleStage fileId st = Returned staged
                 ∧ handleUnstage fileId staged = Returned st).
Proof.
  intros Hcur. eexists _, _. split; [by apply handleUnstage_run|].
  split; [apply currentBranchState_replaced|].
  split; [done|]. split; [done|]. split; [done|]. split; [split|].
  - intros Heq. rewrite <- (setBranchStates_id st cur Hcur) in Heq at 2.
    apply setBranchStates_current_eq, (f_equal stagedFiles) in Heq.
    simpl in Heq. intros Hin.
    assert (fileId ∈ stagedFiles cur ∖ {[fileId]}) as Hin' by by rewrite Heq.
    apply elem_of_difference in Hin' as [_ Hnot]. apply Hnot.
    by apply elem_of_singleton.
  - intros Hout. rewrite <- (setBranchStates_id st cur Hcur) at 2.
    rewrite (difference_disjoint_L (stagedFiles cur) {[fileId]})
      by (by apply disjoint_singleton_r).
    by destruct cur.
  - intros Hout. eexists. split; [by apply handleStage_run|].
    erewrite handleUnstage_run by apply currentBranchState_replaced.
    unfold setBranchStates. simpl. rewrite insert_insert_eq.
    rewrite difference_union_distr_l_L, difference_diag_L, (left_id_L ∅ (∪)).
    rewrite (difference_disjoint_L (stagedFiles cur) {[fileId]})
      by (by apply disjoint_singleton_r).
    replace (Returned st)
      with (Returned (setBranchStates (λ m, <[currentBranch st := cur]> m) st))
      by (by rewrite setBranchStates_id).
    by destruct cur.
Qed.

Lemma handleUnstage_removes_witness :
  ∃ st' cur',
    handleUnstage "b.ts" (demoState ["b.ts"]) = Returned st'
    ∧ currentBranchState st' = Some cur'
    ∧ stagedFiles cur' = stagedFiles (demoBranch ["b.ts"]) ∖ {[ "b.ts" ]}.
Proof.
  destruct (handleUnstage_removes "b.ts" (demoState ["b.ts"]) (demoBranch ["b.ts"]))
    as (st' & cur' & H1 & H2 & H3 & _); [reflexivity|].
  exists st', cur'. exact (conj H1 (conj H2 H3)).
Defined.

Lemma handleStageAll_run st cur :
  currentBranchState st = Some cur →
  handleStageAll st
  = Returned
      (setBranchStates
         (λ m, <[currentBranch st :=
                   {| fileSystem := fileSystem cur;
                      stagedFiles := list_to_set (map id (findChangedFiles (fileSystem cur) []));
                      commits := commits cur |}]> m) st).
Proof.
  intros Hcur. unfold handleStageAll. rewrite (render_Some _ _ _ Hcur).
  by erewrite setCurrentBranchState_Some.
Qed.

(** After [handleStageAll] the panel has nothing left to offer for staging,
    and nothing is staged exactly when the tree has no changed file (so a
    commit is then refused). *)
Theorem handleStageAll_nothing_left st cur :
  currentBranchState st = Some cur →
  ∃ st' cur',
    handleStageAll st = Returned st'
    ∧ currentBranchState st' = Some cur'
    ∧ unstagedFiles cur' = []
    ∧ (stagedFiles cur' = ∅ ↔ findChangedFiles (fileSystem cur) [] = []).
Proof.
  intros Hcur. eexists _, _. split; [by apply handleStageAll_run|].
  split; [apply currentBranchState_replaced|]. split.
  - unfold unstagedFiles. simpl. apply filter_none. intros f Hf Hout.
    apply Hout, elem_of_list_to_set, list_elem_of_In, in_map.
    by apply list_elem_of_In.
  - simpl. destruct (findChangedFiles (fileSystem cur) []) as [|f l]; [done|].
    split; [|done]. intros Hempty.
    assert (id f ∈ (∅ : gset string)) as Hin; [|by apply not_elem_of_empty in Hin].
    rewrite <- Hempty. apply elem_of_list_to_set. simpl. left.
Qed.

Lemma handleStageAll_nothing_left_witness :
  ∃ st' cur',
    handleStageAll (demoState []) = Returned st'
    ∧ currentBranchState st' = Some cur'
    ∧ unstagedFiles cur' = [].
Proof.
  destruct (handleStageAll_nothing_left (demoState []) (demoBranch []))
    as (st' & cur' & H1 & H2 & H3 & _); [reflexivity|].
  exists st', cur'. exact (conj H1 (conj H2 H3)).
Defined.

(** After a successful [handleCommit] the changed files of the tree are the
    files the panel listed as unstaged before the commit, in the same
    order; they are still listed as unstaged, and no staged file is left. *)
Theorem handleCommit_leaves_unstaged clk msg st cur :
  currentBranchState st = Some cur →
  stagedFiles cur ≠ ∅ →
  ∃ st' cur',
    handleCommit clk msg st = Returned st'
    ∧ currentBranchState st' = Some cur'
    ∧ findChangedFiles (fileSystem cur') [] = unstagedFiles cur
    ∧ unstagedFiles cur' = unstagedFiles cur
    ∧ stagedFileItems cur' = [].
Proof.
  intros Hcur Hstaged. eexists _, _.
  split; [by apply handleCommit_staged|].
  split; [apply currentBranchState_replaced|].
  assert (findChangedFiles
            (updateStatusesInTree (fileSystem cur) (stagedFiles cur) unmodified) []
          = unstagedFiles cur) as Hchanged
    by apply findChangedFiles_after_commit.
  split; [done|]. split.
  - unfold unstagedFiles at 1. simpl. rewrite Hchanged.
    apply filter_all. intros f _. apply not_elem_of_empty.
  - unfold stagedFileItems. simpl. by rewrite elements_empty.
Qed.

Lemma handleCommit_leaves_unstaged_witness :
  ∃ st' cur',
    handleCommit demoClock "fix" (demoState ["ghost"]) = Returned st'
    ∧ currentBranchState st' = Some cur'
    ∧ findChangedFiles (fileSystem cur') [] = unstagedFiles (demoBranch ["ghost"]).
Proof.
  destruct (handleCommit_leaves_unstaged demoClock "fix" (demoState ["ghost"])
              (demoBranch ["ghost"])) as (st' & cur' & H1 & H2 & H3 & _).
  - reflexivity.
  - apply (bool_decide_unpack _). vm_compute. exact I.
  - exists st', cur'. exact (conj H1 (conj H2 H3)).
Defined.

(** ** More on editing and creating files *)

(** [handleCodeChange] does nothing when the editor reports no value or no
    file is open.  Otherwise every file of the current tree with the id of
    the open file gets the new content; its status becomes [modified] when
    the cached copy of the open file is [unmodified] and is left as the
    tree has it otherwise (the cached copy decides, not the tree); all other
    files, the staged set and the log are untouched, and the cached copy is
    updated the same way. *)
Theorem handleCodeChange_effect st cur :
  currentBranchState st = Some cur →
  handleCodeChange None st = Returned st
  ∧ (activeFile st = None → ∀ value, handleCodeChange value st = Returned st)
  ∧ ∀ value active,
      activeFile st = Some active →
      ∃ st' cur',
        handleCodeChange (Some value) st = Returned st'
        ∧ currentBranchState st' = Some cur'
        ∧ Forall2
            (λ f f',
               f' = if decide (id f = id active)
                    then {| id := id f; name := name f; language := language f;
                            content := value;
                            gitStatus := if decide (gitStatus active = unmodified)
                                         then modified else gitStatus f |}
                    else f)
            (files (fileSystem cur)) (files (fileSystem cur'))
        ∧ stagedFiles cur' = stagedFiles cur
        ∧ commits cur' = commits cur
        ∧ activeFile st'
          = Some {| id := id active; name := name active;
                    language := language active; content := value;
                    gitStatus := if decide (gitStatus active = unmodified)
                                 then modified else gitStatus active |}.
Proof.
  intros Hcur. split; [|split].
  - unfold handleCodeChange. by rewrite (render_Some _ _ _ Hcur).
  - intros Hnone value. unfold handleCodeChange.
    rewrite (render_Some _ _ _ Hcur), Hnone. by destruct value.
  - intros value active Hactive. eexists _, _.
    split; [by apply handleCodeChange_run|].
    split; [apply currentBranchState_replaced|]. simpl.
    split; [|split; [done|split; [done|]]].
    + rewrite files_updateFileInTree. apply Forall2_map_r. intros f _.
      unfold patch, spread. simpl.
      destruct (decide (id f = id active)); [|done].
      by destruct (decide (gitStatus active = unmodified)).
    + unfold spread. simpl.
      by destruct (decide (gitStatus active = unmodified)).
Qed.

Lemma handleCodeChange_effect_witness :
  handleCodeChange None (demoState []) = Returned (demoState [])
  ∧ ∃ st',
      handleCodeChange (Some "let a = 5;") (demoState []) = Returned st'
      ∧ activeFile st'
        = Some {| id := "a.ts"; name := "a.ts"; language := "typescript";
                  content := "let a = 5;"; gitStatus := modified |}.
Proof.
  destruct (handleCodeChange_effect (demoState []) (demoBranch []))
    as (H1 & _ & H2); [reflexivity|].
  split; [exact H1|].
  destruct (H2 "let a = 5;" a_ts) as (st' & cur' & H3 & _ & _ & _ & _ & H4);
    [reflexivity|].
  exists st'. exact (conj H3 H4).
Defined.

Lemma patch_match fileId updates f :
  id f = fileId → patch fileId updates f = spread f updates.
Proof. intros Hid. unfold patch. by rewrite decide_True. Qed.

Lemma exec_cons_Returned clk e rest st st' :
  step clk e st = Returned st' →
  exec ((clk, e) :: rest) st = exec rest st'.
Proof. simpl. by intros ->. Qed.

(** The cached copy of the open file is not refreshed by a commit.  So when
    the open file is edited, staged, committed and edited again, the second
    edit reaches the tree but the file stays [unmodified] there:
    [findChangedFiles] does not list it. *)
Theorem edit_after_commit_not_flagged clk1 clk2 clk3 clk4 v1 v2 msg st cur active :
  currentBranchState st = Some cur →
  activeFile st = Some active →
  ∃ st' cur',
    exec [(clk1, OnChange (Some v1)); (clk2, OnStage (id active));
          (clk3, OnCommit msg); (clk4, OnChange (Some v2))] st
    = Returned st'
    ∧ currentBranchState st' = Some cur'
    ∧ length (files (fileSystem cur')) = length (files (fileSystem cur))
    ∧ (∀ f, f ∈ files (fileSystem cur') → id f = id active →
            content f = v2 ∧ gitStatus f = unmodified)
    ∧ (∀ f, f ∈ findChangedFiles (fileSystem cur') [] → id f ≠ id active).
Proof.
  intros Hcur Hactive.
  (* the first edit *)
  pose proof (handleCodeChange_run v1 st cur active Hcur Hactive) as H1.
  simpl in H1.
  match type of H1 with _ = Returned ?s => set (st1 := s) in * end.
  match goal with
  | st1 := setActiveFile (λ _, Some ?a)
             (setBranchStates (λ m, <[_ := ?c]> m) _) |- _ =>
      set (a1 := a) in *; set (cur1 := c) in *
  end.
  assert (currentBranchState st1 = Some cur1) as Hcur1
    by apply currentBranchState_replaced.
  assert (gitStatus a1 ≠ unmodified ∧ id a1 = id active) as [Hstatus Hid1].
  { subst a1. unfold spread. simpl.
    by destruct (decide (gitStatus active = unmodified)). }
  (* staging the open file *)
  pose proof (handleStage_run (id active) st1 cur1 Hcur1) as H2.
  match type of H2 with _ = Returned ?s => set (st2 := s) in * end.
  match goal with
  | st2 := setBranchStates (λ m, <[_ := ?c]> m) _ |- _ => set (cur2 := c) in *
  end.
  assert (currentBranchState st2 = Some cur2) as Hcur2
    by apply currentBranchState_replaced.
  assert (stagedFiles cur2 ≠ ∅) as Hstaged2.
  { intros Hempty. apply (not_elem_of_empty (C := gset string) (id active)).
    rewrite <- Hempty. by apply elem_of_union_l, elem_of_singleton. }
  (* the commit *)
  pose proof (handleCommit_staged clk3 msg st2 cur2 Hcur2 Hstaged2) as H3.
  match type of H3 with _ = Returned ?s => set (st3 := s) in * end.
  match goal with
  | st3 := setBranchStates (λ m, <[_ := ?c]> m) _ |- _ => set (cur3 := c) in *
  end.
  assert (currentBranchState st3 = Some cur3) as Hcur3
    by apply currentBranchState_replaced.
  (* the second edit, with the cached copy of before the commit *)
  pose proof (handleCodeChange_run v2 st3 cur3 a1 Hcur3 eq_refl) as H4.
  simpl in H4. rewrite (decide_False (P := gitStatus a1 = unmodified)) in H4 by done.
  try rewrite Hid1 in H4.
  eexists _, _. split.
  { rewrite (exec_cons_Returned clk1 (OnChange (Some v1)) _ _ _ H1),
      (exec_cons_Returned clk2 (OnStage (id active)) _ _ _ H2),
      (exec_cons_Returned clk3 (OnCommit msg) _ _ _ H3),
      (exec_cons_Returned clk4 (OnChange (Some v2)) _ _ _ H4).
    reflexivity. }
  split; [unfold currentBranchState; simpl; apply lookup_insert_eq|]. simpl.
  rewrite files_updateFileInTree, files_updateStatusesInTree, files_updateFileInTree.
  assert (∀ f,
            f ∈ map (patch (id active)
                       {| p_id := None; p_name := None; p_language := None;
                          p_content := Some v2; p_gitStatus := None |})
                  (map (setStatus (stagedFiles cur2) unmodified)
                     (map (patch (id active)
                             {| p_id := None; p_name := None; p_language := None;
                                p_content := Some v1;
                                p_gitStatus := if decide (gitStatus active = unmodified)
                                               then Some modified else None |})
                        (files (fileSystem cur)))) →
            id f = id active → content f = v2 ∧ gitStatus f = unmodified)
    as Hfiles.
  { intros f Hf Hid.
    apply list_elem_of_In, in_map_iff in Hf as (f2 & <- & Hf).
    apply in_map_iff in Hf as (f1 & <- & Hf).
    apply in_map_iff in Hf as (f0 & <- & _).
    rewrite id_patch in Hid by done.
    rewrite patch_match by done.
    unfold setStatus in *.
    destruct (decide (id (patch (id active) _ f0) ∈ stagedFiles cur2))
      as [Hin|Hout].
    - split; reflexivity.
    - destruct Hout. simpl in Hid. rewrite Hid.
      by apply elem_of_union_l, elem_of_singleton. }
  split; [by rewrite !length_map|]. split; [exact Hfiles|].
  intros f Hf Hid. rewrite findChangedFiles_files in Hf. simpl in Hf.
  apply list_elem_of_filter in Hf as [Hch Hf].
  rewrite files_updateFileInTree, files_updateStatusesInTree,
    files_updateFileInTree in Hf.
  by destruct (Hfiles f Hf Hid) as [_ Hun].
Qed.

Lemma edit_after_commit_not_flagged_witness :
  ∃ st' cur',
    exec [(demoClock, OnChange (Some "let a = 2;")); (demoClock, OnStage "a.ts");
          (demoClock, OnCommit "fix"); (demoClock, OnChange (Some "let a = 3;"))]
      (demoState [])
    = Returned st'
    ∧ currentBranchState st' = Some cur'
    ∧ ∀ f, f ∈ findChangedFiles (fileSystem cur') [] → id f ≠ "a.ts".
Proof.
  destruct (edit_after_commit_not_flagged demoClock demoClock demoClock demoClock
              "let a = 2;" "let a = 3;" "fix" (demoState []) (demoBranch []) a_ts)
    as (st' & cur' & H1 & H2 & _ & _ & H3); [reflexivity|reflexivity|].
  exists st', cur'. exact (conj H1 (conj H2 H3)).
Defined.

Lemma handleCreateFile_run clk filename lang st cur i n children :
  currentBranchState st = Some cur →
  fileSystem cur = Folder i n children →
  filename ≠ "" →
  let newFile :=
    {| id := "file-" +:+ pretty (Date_now clk);
       name := trim filename;
       language := toLowerCase (trim (match lang with
                                      | None | Some EmptyString => "plaintext"
                                      | Some l => l
                                      end));
       content := "";
       gitStatus := new |} in
  handleCreateFile clk (Some filename) lang st
  = Returned
      (setActiveFile (λ _, Some newFile)
         (setBranchStates
            (λ m, <[currentBranch st :=
                      {| fileSystem := Folder i n (children ++ [File newFile]);
                         stagedFiles := stagedFiles cur;
                         commits := commits cur |}]> m) st)).
Proof.
  intros Hcur Hroot Hname newFile. unfold handleCreateFile.
  rewrite (render_Some _ _ _ Hcur). destruct filename as [|a filename]; [done|].
  erewrite setCurrentBranchState_Some; [done|done|]. by rewrite Hroot.
Qed.

(** [handleCreateFile] does nothing when the prompt is cancelled or left
    empty.  Otherwise, on a folder root, it appends one file with status
    [new], empty content and the trimmed name as the last child of the
    root and opens it: the file is the last of the changed files, every id
    that resolved before resolves to the same file, and the new id resolves
    to the new file if no file carried it.  Staged set and log are kept. *)
Theorem handleCreateFile_appends clk lang st cur :
  currentBranchState st = Some cur →
  handleCreateFile clk None lang st = Returned st
  ∧ handleCreateFile clk (Some "") lang st = Returned st
  ∧ ∀ filename i n children,
      fileSystem cur = Folder i n children →
      filename ≠ "" →
      ∃ st' cur' newFile,
        handleCreateFile clk (Some filename) lang st = Returned st'
        ∧ currentBranchState st' = Some cur'
        ∧ activeFile st' = Some newFile
        ∧ fileSystem cur' = Folder i n (children ++ [File newFile])
        ∧ name newFile = trim filename
        ∧ content newFile = ""
        ∧ gitStatus newFile = new
        ∧ findChangedFiles (fileSystem cur') []
          = findChangedFiles (fileSystem cur) [] ++ [newFile]
        ∧ (∀ j f, findFileInTree (fileSystem cur) j = Some f →
                  findFileInTree (fileSystem cur') j = Some f)
        ∧ (findFileInTree (fileSystem cur) (id newFile) = None →
           findFileInTree (fileSystem cur') (id newFile) = Some newFile)
        ∧ stagedFiles cur' = stagedFiles cur
        ∧ commits cur' = commits cur.
Proof.
  intros Hcur. split; [|split].
  - unfold handleCreateFile. by rewrite (render_Some _ _ _ Hcur).
  - unfold handleCreateFile. by rewrite (render_Some _ _ _ Hcur).
  - intros filename i n children Hroot Hname. eexists _, _, _.
    split; [by apply (handleCreateFile_run _ _ _ _ cur i n children)|].
    split; [apply currentBranchState_replaced|].
    cbn [fileSystem stagedFiles commits activeFile setActiveFile
         name content gitStatus id].
    split; [done|]. split; [done|]. split; [done|]. split; [done|].
    split; [done|].
    split; [|split; [|split; [|done]]].
    + rewrite !findChangedFiles_files, files_appended, Hroot, filter_app. simpl.
      by rewrite filter_cons, decide_True.
    + intros j f. rewrite !findFileInTree_files, files_appended, Hroot, filter_app.
      rewrite head_app. by intros ->.
    + rewrite !findFileInTree_files, files_appended, Hroot, filter_app, head_app.
      intros ->. simpl. by rewrite filter_cons, decide_True.
Qed.

Lemma handleCreateFile_appends_witness :
  ∃ st' cur' newFile,
    handleCreateFile demoClock (Some " notes.md ") None (demoState []) = Returned st'
    ∧ currentBranchState st' = Some cur'
    ∧ activeFile st' = Some newFile
    ∧ fileSystem cur'
      = Folder "root" "project"
          ([Folder "src-folder" "src" [File a_ts]; File b_ts] ++ [File newFile])
    ∧ name newFile = "notes.md".
Proof.
  destruct (handleCreateFile_appends demoClock None (demoState []) (demoBranch []))
    as (_ & _ & Hnew); [reflexivity|].
  destruct (Hnew " notes.md " "root" "project"
              [Folder "src-folder" "src" [File a_ts]; File b_ts])
    as (st' & cur' & newFile & H1 & H2 & H3 & H4 & H5 & _);
    [reflexivity|discriminate|].
  exists st', cur', newFile. exact (conj H1 (conj H2 (conj H3 (conj H4 H5)))).
Defined.

(** ** The open file stays in the current branch *)

Lemma firstFile_elem children f :
  firstFile children = Some f → f ∈ flat_map files children.
Proof.
  induction children as [|[g|i n cs] rest IH]; simpl; [done| |].
  - intros [= ->]. left.
  - intros Hrest. apply elem_of_app. right. by apply IH.
Qed.

Lemma activeResolves_opened st next opened :
  (∀ active, opened = Some active →
             ∃ f, f ∈ files (fileSystem next) ∧ id f = id active) →
  activeResolves
    (setActiveFile (λ _, opened)
       (setBranchStates (λ m, <[currentBranch st := next]> m) st)).
Proof.
  intros Hopened active cur Hactive Hcur. simpl in Hactive.
  unfold currentBranchState in Hcur. simpl in Hcur.
  rewrite lookup_insert_eq in Hcur. injection Hcur as <-. by apply Hopened.
Qed.

Lemma activeResolves_replaced st cur next :
  activeResolves st →
  currentBranchState st = Some cur →
  (∀ f, f ∈ files (fileSystem cur) →
        ∃ f', f' ∈ files (fileSystem next) ∧ id f' = id f) →
  activeResolves (setBranchStates (λ m, <[currentBranch st := next]> m) st).
Proof.
  intros Hinv Hcur Hids active cur' Hactive Hcur'. simpl in Hactive.
  rewrite currentBranchState_replaced in Hcur'. injection Hcur' as <-.
  destruct (Hinv active cur Hactive Hcur) as (f & Hf & <-). by apply Hids.
Qed.

Lemma handleCommit_activeResolves clk msg st st' :
  activeResolves st →
  stateOf (handleCommit clk msg st) = st' →
  activeResolves st'.
Proof.
  intros Hinv <-. unfold handleCommit, render.
  destruct (currentBranchState st) as [cur|] eqn:Hcur; [|done].
  case_decide; [done|].
  erewrite setCurrentBranchState_Some; [|done|reflexivity]. simpl.
  apply (activeResolves_replaced st cur); [done|done|]. simpl.
  intros f Hf. exists (setStatus (stagedFiles cur) unmodified f). split.
  - rewrite files_updateStatusesInTree.
    by apply list_elem_of_In, in_map, list_elem_of_In.
  - unfold setStatus. by case_decide.
Qed.

(** Whenever a handler returns (with or without an alert), the open file,
    if there is one, still carries the id of a file of the tree of the
    branch that is then current: select, create, edit, stage, unstage,
    stageAll, commit, createBranch and switchBranch all keep this. *)
Theorem step_keeps_activeResolves clk e st st' :
  activeResolves st →
  step clk e st = Returned st' ∨ (∃ text, step clk e st = Alerted text st') →
  activeResolves st'.
Proof.
  intros Hinv Hret.
  assert (stateOf (step clk e st) = st'
          ∧ ∀ s, step clk e st ≠ TypeError s) as [Hst' Hok].
  { destruct Hret as [->|[text ->]]; by split. }
  clear Hret. revert Hst' Hok.
  destruct (currentBranchState st) as [cur|] eqn:Hcur.
  2:{ intros _ Hok. destruct (Hok st).
      destruct e; simpl;
        unfold handleFileSelect, handleCreateFile, handleCreateFolder,
          handleCodeChange, handleStage, handleUnstage, handleStageAll,
          handleCommit, GitPanel_handleCommit, handleCreateBranch,
          handleSwitchBranch, render; by rewrite Hcur. }
  destruct e as [file|filename lang|folderName|value|fileId|fileId| |message
                 |commitMessage|newBranchName|branchName]; simpl.
  - unfold handleFileSelect. rewrite (render_Some _ _ _ Hcur). simpl.
    intros <- _ active cur' Hactive Hcur'. simpl in *.
    assert (cur' = cur) as -> by (unfold currentBranchState in *; simpl in *; congruence).
    apply findFileInTree_Some in Hactive as [Hin _]. by exists active.
  - unfold handleCreateFile. rewrite (render_Some _ _ _ Hcur).
    destruct filename as [[|a filename]|]; [by intros <-| |by intros <-].
    destruct (fileSystem cur) as [f|i n children] eqn:Hroot.
    + unfold setCurrentBranchState. fold (currentBranchState st).
      rewrite Hcur. simpl. rewrite Hroot. simpl. intros _ Hok. by destruct (Hok st).
    + erewrite setCurrentBranchState_Some; [|done|by rewrite Hroot]. simpl.
      intros <- _. apply activeResolves_opened. intros active [= <-].
      eexists. split; [|done]. simpl fileSystem. rewrite files_appended.
      apply elem_of_app. right. left.
  - unfold handleCreateFolder. rewrite (render_Some _ _ _ Hcur).
    destruct folderName as [[|a folderName]|]; [by intros <-| |by intros <-].
    destruct (fileSystem cur) as [f|i n children] eqn:Hroot.
    + unfold setCurrentBranchState. fold (currentBranchState st).
      rewrite Hcur. simpl. rewrite Hroot. simpl. intros _ Hok. by destruct (Hok st).
    + erewrite setCurrentBranchState_Some; [|done|by rewrite Hroot]. simpl.
      intros <- _. apply (activeResolves_replaced st cur); [done|done|].
      intros f Hf. exists f. split; [|done]. simpl fileSystem.
      rewrite files_appended, <- Hroot. apply elem_of_app. by left.
  - unfold handleCodeChange. rewrite (render_Some _ _ _ Hcur).
    destruct value as [value|]; [|by intros <-].
    destruct (activeFile st) as [active|] eqn:Hactive; [|by intros <-].
    erewrite setCurrentBranchState_Some; [|done|reflexivity]. simpl.
    intros <- _. unfold setActiveFile, setBranchStates. simpl. rewrite Hactive.
    apply (activeResolves_opened st). intros act [= <-].
    destruct (Hinv active cur Hactive Hcur) as (f & Hf & Hid).
    eexists. split.
    + simpl fileSystem. rewrite files_updateFileInTree.
      apply list_elem_of_In, in_map, list_elem_of_In, Hf.
    + rewrite id_patch by done. by rewrite Hid.
  - rewrite (handleStage_run _ _ _ Hcur). simpl. intros <- _.
    apply (activeResolves_replaced st cur); [done|done|]. by eauto.
  - rewrite (handleUnstage_run _ _ _ Hcur). simpl. intros <- _.
    apply (activeResolves_replaced st cur); [done|done|]. by eauto.
  - rewrite (handleStageAll_run _ _ Hcur). simpl. intros <- _.
    apply (activeResolves_replaced st cur); [done|done|]. by eauto.
  - intros Hst' _. by eapply handleCommit_activeResolves.
  - unfold GitPanel_handleCommit. rewrite (render_Some _ _ _ Hcur).
    case_decide; [|by intros <-].
    intros Hst' _. by eapply handleCommit_activeResolves.
  - unfold handleCreateBranch. rewrite (render_Some _ _ _ Hcur).
    destruct newBranchName as [[|a newBranchName]|]; [by intros <-| |by intros <-].
    case_decide; [by intros <-|]. simpl.
    intros <- _ active cur' Hactive Hcur'. simpl in Hactive.
    unfold currentBranchState in Hcur'. simpl in Hcur'.
    rewrite lookup_insert_eq in Hcur'. injection Hcur' as <-.
    by apply Hinv.
  - unfold handleSwitchBranch. rewrite (render_Some _ _ _ Hcur).
    case_decide; [by intros <-|].
    destruct (branchStates st !! branchName) as [target|] eqn:Htarget;
      [|intros _ Hok; by edestruct Hok].
    destruct (match activeFile st with
              | Some active => findFileInTree (fileSystem target) (id active)
              | None => findFileInTree (fileSystem target) "user-service-ts"
              end) as [found|] eqn:Hfound.
    + simpl. intros <- _ active cur' Hactive Hcur'. simpl in *.
      unfold currentBranchState in Hcur'. simpl in Hcur'.
      assert (cur' = target) as -> by congruence. injection Hactive as <-.
      exists found. split; [|done].
      destruct (activeFile st); by apply findFileInTree_Some in Hfound as [? _].
    + destruct (fileSystem target) as [f|i n children] eqn:Hroot;
        [intros _ Hok; by edestruct Hok|].
      simpl. intros <- _ active cur' Hactive Hcur'. simpl in *.
      unfold currentBranchState in Hcur'. simpl in Hcur'.
      assert (cur' = target) as -> by congruence.
      exists active. split; [|done]. rewrite Hroot. simpl.
      by apply firstFile_elem.
Qed.

Lemma demoState_activeResolves : activeResolves (demoState []).
Proof.
  intros active cur [= <-] [= <-]. exists a_ts. split; [|done]. simpl. left.
Qed.

Lemma step_keeps_activeResolves_witness :
  activeResolves
    (stateOf (step demoClock (OnChange (Some "let a = 7;")) (demoState []))).
Proof.
  apply (step_keeps_activeResolves demoClock (OnChange (Some "let a = 7;"))
           (demoState [])).
  - exact demoState_activeResolves.
  - left. reflexivity.
Defined.

Lemma firstFile_None children :
  firstFile children = None → ∀ f, File f ∉ children.
Proof.
  induction children as [|[g|i n cs] rest IH]; simpl.
  - intros _ f. apply not_elem_of_nil.
  - done.
  - intros Hrest f [?|Hin]%elem_of_cons; [done|]. by apply (IH Hrest f).
Qed.

(** [firstFile] returns the first direct child that is a file. *)
Lemma firstFile_spec children f :
  firstFile children = Some f
  ↔ ∃ before after,
      children = before ++ File f :: after ∧ Forall isFolder before.
Proof.
  induction children as [|[g|i n cs] rest IH]; simpl.
  - split; [done|]. intros (before & after & Heq & _). by destruct before.
  - split.
    + intros [= ->]. by exists [], rest.
    + intros ([|c before] & after & Heq & Hfolders); simplify_eq/=; [done|].
      apply Forall_cons in Hfolders as [[] _].
  - rewrite IH. split.
    + intros (before & after & -> & Hfolders).
      exists (Folder i n cs :: before), after. split; [done|].
      by constructor.
    + intros ([|c before] & after & Heq & Hfolders); simplify_eq/=.
      apply Forall_cons in Hfolders as [_ Hfolders]. by exists before, after.
Qed.

(** After [handleSwitchBranch] has returned from a switch to another
    existing branch, that branch is current and the open file is taken from
    its tree.  The id looked up there is the id of the file that was open,
    or [user-service-ts] when none was.  If it resolves, the file it
    resolves to is open.  If it does not, the open file is the first direct
    child of the root that is a file, and no file is open exactly when the
    root has no file as a direct child.  A file of the branch that was left
    is never shown. *)
Theorem handleSwitchBranch_opens_target name st cur target st' :
  currentBranchState st = Some cur →
  name ≠ currentBranch st →
  branchStates st !! name = Some target →
  handleSwitchBranch name st = Returned st' →
  let wanted := match activeFile st with
                | Some active => id active
                | None => "user-service-ts"
                end in
  currentBranchState st' = Some target
  ∧ (∀ f, activeFile st' = Some f → f ∈ files (fileSystem target))
  ∧ (∀ found, findFileInTree (fileSystem target) wanted = Some found →
              activeFile st' = Some found)
  ∧ (findFileInTree (fileSystem target) wanted = None →
     ∃ i n children,
       fileSystem target = Folder i n children
       ∧ activeFile st' = firstFile children
       ∧ (∀ f, activeFile st' = Some f
               ↔ ∃ before after,
                   children = before ++ File f :: after
                   ∧ Forall isFolder before)
       ∧ (activeFile st' = None ↔ ∀ f, File f ∉ children)).
Proof.
  intros Hcur Hname Htarget. unfold handleSwitchBranch.
  rewrite (render_Some _ _ _ Hcur), decide_False, Htarget by done.
  assert (match activeFile st with
          | Some active => findFileInTree (fileSystem target) (id active)
          | None => findFileInTree (fileSystem target) "user-service-ts"
          end
          = findFileInTree (fileSystem target)
              match activeFile st with
              | Some active => id active
              | None => "user-service-ts"
              end) as -> by by destruct (activeFile st).
  set (wanted := match activeFile st with
                 | Some active => id active
                 | None => "user-service-ts"
                 end).
  intros Hrun.
  destruct (findFileInTree (fileSystem target) wanted) as [found|] eqn:Hfound.
  - injection Hrun as <-. split; [done|]. split; [|split; [|done]].
    + intros f [= <-]. by apply findFileInTree_Some in Hfound as [? _].
    + by intros found' [= <-].
  - destruct (fileSystem target) as [f|i n children] eqn:Hroot; [done|].
    injection Hrun as <-. split; [done|]. split; [|split; [done|]].
    + intros f Hf. by apply firstFile_elem.
    + intros _. exists i, n, children. split; [done|]. split; [done|]. split.
      * intros f. apply firstFile_spec.
      * split; [apply firstFile_None|].
        intros Hnone. simpl.
        destruct (firstFile children) as [f|] eqn:Hfirst; [|done].
        apply firstFile_spec in Hfirst as (before & after & -> & _).
        destruct (Hnone f). apply elem_of_app. right. left.
Qed.

Lemma handleSwitchBranch_opens_target_witness :
  ∃ forked st',
    handleCreateBranch (Some "b2") (demoState []) = Returned forked
    ∧ handleSwitchBranch "main" forked = Returned st'
    ∧ currentBranchState st' = Some (demoBranch [])
    ∧ ∀ f, activeFile st' = Some f → f ∈ files (fileSystem (demoBranch [])).
Proof.
  pose (forked := setCurrentBranch "b2"
                    (setBranchStates (λ prev, <["b2" := demoBranch []]> prev)
                       (demoState []))).
  pose (st' := setActiveFile (λ _, Some a_ts) (setCurrentBranch "main" forked)).
  destruct (handleSwitchBranch_opens_target "main" forked (demoBranch [])
              (demoBranch []) st') as (H1 & H2 & _);
    [reflexivity|discriminate|reflexivity|reflexivity|].
  exists forked, st'. exact (conj eq_refl (conj eq_refl (conj H1 H2))).
Defined.

(** ** Nothing is ever deleted *)

Lemma Forall2_same_id (l : list FileItem) (g : FileItem → FileItem) :
  (∀ f, id (g f) = id f) → Forall2 (λ f f', id f' = id f) l (map g l).
Proof. intros Hg. apply Forall2_map_r. by intros f _. Qed.

Lemma grows_files prev next new g added :
  commits next = new ++ commits prev →
  length new ≤ 1 →
  files (fileSystem next) = map g (files (fileSystem prev)) ++ added →
  (∀ f, id (g f) = id f) →
  grows prev next.
Proof.
  intros Hlog Hnew Hfiles Hg. split; [by exists new|].
  exists (map g (files (fileSystem prev))), added.
  split; [done|by apply Forall2_same_id].
Qed.

Lemma grows_same prev next :
  commits next = commits prev →
  fileSystem next = fileSystem prev →
  grows prev next.
Proof.
  intros Hlog Htree.
  apply (grows_files prev next [] (λ f, f) []); [done|simpl; lia| |done].
  by rewrite Htree, app_nil_r, map_id.
Qed.

Lemma storeGrows_store st st' :
  branchStates st' = branchStates st → storeGrows st st'.
Proof.
  intros Hstore b bs Hbs. exists bs. rewrite Hstore.
  split; [done|]. split; [done|]. by apply grows_same.
Qed.

Lemma storeGrows_replaced st st' cur next :
  currentBranchState st = Some cur →
  grows cur next →
  branchStates st' = <[currentBranch st := next]> (branchStates st) →
  storeGrows st st'.
Proof.
  intros Hcur Hgrows Hstore b bs Hbs. rewrite Hstore.
  destruct (decide (b = currentBranch st)) as [->|Hb].
  - exists next. rewrite lookup_insert_eq. split; [done|]. split; [done|].
    unfold currentBranchState in Hcur. congruence.
  - exists bs. rewrite lookup_insert_ne by done.
    split; [done|]. split; [done|]. by apply grows_same.
Qed.

Lemma handleCommit_storeGrows clk msg st :
  storeGrows st (stateOf (handleCommit clk msg st)).
Proof.
  unfold handleCommit, render.
  destruct (currentBranchState st) as [cur|] eqn:Hcur;
    [|by apply storeGrows_store].
  case_decide; [by apply storeGrows_store|].
  erewrite setCurrentBranchState_Some; [|done|reflexivity].
  eapply (storeGrows_replaced st _ cur); [done| |done].
  eapply (grows_files _ _ [_] (setStatus (stagedFiles cur) unmodified) []);
    [done|done| |].
  - simpl. by rewrite files_updateStatusesInTree, app_nil_r.
  - intros f. unfold setStatus. by case_decide.
Qed.

(** No event deletes anything.  After any event every branch that existed
    still exists; a branch other than the current one has the very same
    snapshot; the current one has its old commit log behind at most one new
    commit, and for each of its old files a file with the same id at the
    same place in the pre-order, possibly followed by new files. *)
Theorem step_storeGrows clk e st :
  storeGrows st (stateOf (step clk e st)).
Proof.
  destruct (currentBranchState st) as [cur|] eqn:Hcur.
  2:{ apply storeGrows_store.
      destruct e; simpl;
        unfold handleFileSelect, handleCreateFile, handleCreateFolder,
          handleCodeChange, handleStage, handleUnstage, handleStageAll,
          handleCommit, GitPanel_handleCommit, handleCreateBranch,
          handleSwitchBranch, render; by rewrite Hcur. }
  destruct e as [file|filename lang|folderName|value|fileId|fileId| |message
                 |commitMessage|newBranchName|branchName]; simpl.
  - unfold handleFileSelect. rewrite (render_Some _ _ _ Hcur).
    by apply storeGrows_store.
  - unfold handleCreateFile. rewrite (render_Some _ _ _ Hcur).
    destruct filename as [[|a filename]|]; try by apply storeGrows_store.
    destruct (fileSystem cur) as [f|i n children] eqn:Hroot.
    + unfold setCurrentBranchState. fold (currentBranchState st).
      rewrite Hcur. simpl. rewrite Hroot. by apply storeGrows_store.
    + erewrite setCurrentBranchState_Some; [|done|by rewrite Hroot]. simpl.
      eapply (storeGrows_replaced st _ cur); [done| |done].
      eapply (grows_files _ _ [] (λ f, f) [_]); [done|simpl; lia| |done].
      simpl fileSystem. by rewrite files_appended, Hroot, map_id.
  - unfold handleCreateFolder. rewrite (render_Some _ _ _ Hcur).
    destruct folderName as [[|a folderName]|]; try by apply storeGrows_store.
    destruct (fileSystem cur) as [f|i n children] eqn:Hroot.
    + unfold setCurrentBranchState. fold (currentBranchState st).
      rewrite Hcur. simpl. rewrite Hroot. by apply storeGrows_store.
    + erewrite setCurrentBranchState_Some; [|done|by rewrite Hroot]. simpl.
      eapply (storeGrows_replaced st _ cur); [done| |done].
      eapply (grows_files _ _ [] (λ f, f) []); [done|simpl; lia| |done].
      simpl fileSystem. by rewrite files_appended, Hroot, map_id.
  - unfold handleCodeChange. rewrite (render_Some _ _ _ Hcur).
    destruct value as [value|]; [|by apply storeGrows_store].
    destruct (activeFile st) as [active|] eqn:Hactive;
      [|by apply storeGrows_store].
    erewrite setCurrentBranchState_Some; [|done|reflexivity]. simpl.
    eapply (storeGrows_replaced st _ cur); [done| |done].
    eapply (grows_files _ _ [] _ []); [done|simpl; lia| |].
    + simpl fileSystem. by rewrite files_updateFileInTree, app_nil_r.
    + intros f. by apply id_patch.
  - rewrite (handleStage_run _ _ _ Hcur).
    eapply (storeGrows_replaced st _ cur); [done| |done]; by apply grows_same.
  - rewrite (handleUnstage_run _ _ _ Hcur).
    eapply (storeGrows_replaced st _ cur); [done| |done]; by apply grows_same.
  - rewrite (handleStageAll_run _ _ Hcur).
    eapply (storeGrows_replaced st _ cur); [done| |done]; by apply grows_same.
  - apply handleCommit_storeGrows.
  - unfold GitPanel_handleCommit. rewrite (render_Some _ _ _ Hcur).
    case_decide; [apply handleCommit_storeGrows|by apply storeGrows_store].
  - unfold handleCreateBranch. rewrite (render_Some _ _ _ Hcur).
    destruct newBranchName as [[|a newBranchName]|]; try by apply storeGrows_store.
    case_decide as Hpresent; [by apply storeGrows_store|].
    intros b bs Hbs. exists bs. simpl.
    rewrite lookup_insert_ne by (intros <-; apply Hpresent; left; by eexists).
    split; [done|]. split; [done|]. by apply grows_same.
  - apply storeGrows_store, handleSwitchBranch_store.
Qed.

(** ** The folder toggle *)

(** Toggling a folder twice gives back the set of expanded folders;
    toggling flips the membership of that folder and of no other. *)
Theorem handleToggleFolder_involutive folderId prev :
  handleToggleFolder folderId (handleToggleFolder folderId prev) = prev
  ∧ (folderId ∈ handleToggleFolder folderId prev ↔ folderId ∉ prev)
  ∧ ∀ other, other ≠ folderId →
             (other ∈ handleToggleFolder folderId prev ↔ other ∈ prev).
Proof.
  unfold handleToggleFolder.
  destruct (decide (folderId ∈ prev)) as [Hin|Hout].
  - rewrite decide_False
      by (rewrite elem_of_difference, elem_of_singleton; tauto).
    split; [|split].
    + apply set_eq. intros x.
      rewrite elem_of_union, elem_of_difference, elem_of_singleton.
      destruct (decide (x = folderId)) as [->|]; tauto.
    + rewrite elem_of_difference, elem_of_singleton. tauto.
    + intros other Hother. rewrite elem_of_difference, elem_of_singleton. tauto.
  - rewrite decide_True
      by (rewrite elem_of_union, elem_of_singleton; tauto).
    split; [|split].
    + apply set_eq. intros x.
      rewrite elem_of_difference, elem_of_union, elem_of_singleton.
      destruct (decide (x = folderId)) as [->|]; tauto.
    + rewrite elem_of_union, elem_of_singleton. tauto.
    + intros other Hother. rewrite elem_of_union, elem_of_singleton. tauto.
Qed.

(** ** [escapeHtml] *)

Lemma append_cons a s1 s2 : String a s1 +:+ s2 = String a (s1 +:+ s2).
Proof. reflexivity. Qed.

Lemma append_assoc s1 s2 s3 : (s1 +:+ s2) +:+ s3 = s1 +:+ (s2 +:+ s3).
Proof.
  induction s1 as [|a s1 IH]; [reflexivity|]. by rewrite !append_cons, IH.
Qed.

Lemma replaceAll_app c by_ s1 s2 :
  replaceAll c by_ (s1 +:+ s2) = replaceAll c by_ s1 +:+ replaceAll c by_ s2.
Proof.
  induction s1 as [|a s1 IH]; [reflexivity|].
  rewrite append_cons. simpl. rewrite IH.
  case_decide; [by rewrite append_assoc|by rewrite append_cons].
Qed.

Lemma escapeHtml_app s1 s2 :
  escapeHtml (s1 +:+ s2) = escapeHtml s1 +:+ escapeHtml s2.
Proof. unfold escapeHtml. by rewrite !replaceAll_app. Qed.

Lemma escapeHtml_char a : escapeHtml (String a EmptyString) = entity a.
Proof.
  unfold escapeHtml, entity, quot, apos.
  repeat (case_decide; [subst a; reflexivity|]).
  by repeat (simpl; rewrite decide_False by done).
Qed.

(** The five passes of [escapeHtml] amount to one pass that replaces each
    character on its own. *)
Lemma escapeHtml_each s : escapeHtml s = escapeEach s.
Proof.
  induction s as [|a s IH]; [done|].
  change (String a s) with (String a EmptyString +:+ s).
  rewrite escapeHtml_app, escapeHtml_char, IH. done.
Qed.

Lemma list_ascii_of_string_app s1 s2 :
  list_ascii_of_string (s1 +:+ s2)
  = list_ascii_of_string s1 ++ list_ascii_of_string s2.
Proof.
  induction s1 as [|a s1 IH]; [reflexivity|].
  rewrite append_cons. simpl. by rewrite IH.
Qed.

Lemma entity_no_meta a b :
  b ∈ list_ascii_of_string (entity a) → ¬ htmlMeta b.
Proof.
  unfold entity, htmlMeta, quot, apos.
  repeat case_decide; simpl; intros Hb;
    repeat (apply elem_of_cons in Hb as [->|Hb]; [intuition congruence|]);
    by apply not_elem_of_nil in Hb.
Qed.

(** The result of [escapeHtml] contains none of the characters [<], [>],
    double quote and single quote, whatever the input. *)
Theorem escapeHtml_no_meta str :
  Forall (λ a, ¬ htmlMeta a) (list_ascii_of_string (escapeHtml str)).
Proof.
  rewrite escapeHtml_each. apply Forall_forall.
  induction str as [|c str IH]; simpl.
  - by intros a ?%not_elem_of_nil.
  - intros a. rewrite list_ascii_of_string_app, elem_of_app.
    intros [Hc|Hrest]; [by apply (entity_no_meta c)|by apply IH].
Qed.

Lemma entity_prefix a1 a2 r1 r2 :
  entity a1 +:+ r1 = entity a2 +:+ r2 → a1 = a2 ∧ r1 = r2.
Proof.
  unfold entity, quot, apos.
  repeat case_decide; subst; rewrite ?append_cons; intros Heq;
    simplify_eq; done.
Qed.

(** [escapeHtml] loses nothing: two texts with the same escaped form are
    the same text. *)
Theorem escapeHtml_inj str1 str2 :
  escapeHtml str1 = escapeHtml str2 → str1 = str2.
Proof.
  rewrite !escapeHtml_each. revert str2.
  induction str1 as [|a1 str1 IH]; intros [|a2 str2]; simpl.
  - done.
  - unfold entity. repeat case_decide; by rewrite ?append_cons.
  - unfold entity. repeat case_decide; by rewrite ?append_cons.
  - intros [-> Hrest]%entity_prefix. f_equal. by apply IH.
Qed.

Lemma escapeHtml_inj_witness : "a<b" = "a<b".
Proof. apply (escapeHtml_inj "a<b" "a<b"). reflexivity. Defined.

(** A text without [&], [<], [>] and quotes is left as it is. *)
Theorem escapeHtml_plain str :
  (∀ a, a ∈ list_ascii_of_string str → a ≠ "&"%char ∧ ¬ htmlMeta a) →
  escapeHtml str = str.
Proof.
  rewrite escapeHtml_each.
  induction str as [|c str IH]; intros Hplain; [done|]. simpl.
  rewrite IH by (intros a Ha; apply Hplain; simpl; by right).
  destruct (Hplain c) as [Hamp Hmeta]; [simpl; left|].
  unfold entity, htmlMeta in *.
  by repeat (rewrite decide_False by tauto).
Qed.

Lemma escapeHtml_plain_witness : escapeHtml "let a = 1;" = "let a = 1;".
Proof.
  apply escapeHtml_plain. intros a Ha. simpl in Ha.
  unfold htmlMeta, quot, apos.
  repeat (apply elem_of_cons in Ha as [->|Ha]; [split; [done|intuition congruence]|]).
  by apply not_elem_of_nil in Ha.
Defined.

(** ** The terminal *)

Lemma findFileByName_files item fileName :
  findFileByName item fileName
  = head (filter (λ f, name f = fileName) (files item)).
Proof.
  induction item as [f|i n children IH] using FileSystemItem_ind; simpl.
  - rewrite filter_cons, filter_nil. by case_decide.
  - induction IH as [|c rest Hc _ IHrest]; [done|].
    simpl. rewrite filter_app, head_app, <- Hc.
    destruct (findFileByName c fileName); [done|apply IHrest].
Qed.

(** [findFileByName] returns a file exactly when it is the first file of
    the tree, in pre-order, with that name; folders are never returned. *)
Theorem findFileByName_first_match tree fileName f :
  findFileByName tree fileName = Some f
  ↔ ∃ before after,
      files tree = before ++ f :: after
      ∧ name f = fileName
      ∧ ∀ g, g ∈ before → name g ≠ fileName.
Proof.
  rewrite findFileByName_files.
  apply (head_filter_Some (λ g, name g = fileName)).
Qed.

Lemma trimEnd_noWhiteSpace s : noWhiteSpace s → trimEnd s = s.
Proof.
  unfold noWhiteSpace. induction s as [|a s IH]; [done|]. simpl.
  intros [Ha Hs]%Forall_cons. rewrite IH by done.
  destruct s; [by rewrite Ha|done].
Qed.

Lemma split_noWhiteSpace s : noWhiteSpace s → split s = [s].
Proof.
  unfold noWhiteSpace. induction s as [|a s IH]; [done|]. simpl.
  intros [Ha Hs]%Forall_cons. rewrite IH by done.
  rewrite decide_False; [done|]. by intros ->.
Qed.

Lemma trim_command word arg :
  noWhiteSpace word → word ≠ "" → noWhiteSpace arg → arg ≠ "" →
  split (trim (word +:+ " " +:+ arg)) = [word; arg].
Proof.
  intros Hword Hw Harg Ha.
  assert (trim (word +:+ " " +:+ arg) = word +:+ " " +:+ arg) as ->.
  { unfold trim. destruct word as [|a word]; [done|].
    apply Forall_cons in Hword as [Hfirst Hword].
    rewrite append_cons. simpl trimStart. rewrite Hfirst.
    rewrite <- append_cons.
    generalize (String a word). clear a word Hfirst Hword Hw. intros word.
    induction word as [|a word IH].
    - change ("" +:+ " " +:+ arg) with (String " " arg). simpl.
      rewrite trimEnd_noWhiteSpace by done. by destruct arg.
    - rewrite append_cons. simpl. rewrite IH.
      destruct word; by rewrite ?append_cons. }
  clear Hw. induction word as [|a word IH].
  - change ("" +:+ " " +:+ arg) with (String " " arg). simpl.
    by rewrite split_noWhiteSpace.
  - apply Forall_cons in Hword as [Hfirst Hword].
    rewrite append_cons. simpl. rewrite IH by done.
    rewrite decide_False; [done|]. by intros ->.
Qed.

Section terminal_facts.
Variable folderIcon fileIcon lastMark midMark : string.
Variable fileSystem : FileSystemItem.

(** [cat name] and [run name], for a name without white space: the first
    file of the tree with that name is looked up; [cat] answers with its
    content, [run] with the simulated run of it, and both with an error
    naming the file when there is none.  Nothing is queued. *)
Theorem processCommand_cat_run arg t :
  noWhiteSpace arg →
  arg ≠ "" →
  processCommand folderIcon fileIcon lastMark midMark fileSystem ("cat " +:+ arg) t
  = (match findFileByName fileSystem arg with
     | Some file => content file
     | None => "Error: File not found: " +:+ arg
     end, t)
  ∧ processCommand folderIcon fileIcon lastMark midMark fileSystem ("run " +:+ arg) t
    = (match findFileByName fileSystem arg with
       | Some file => "Simulating execution of " +:+ name file +:+ "..."
                      +:+ newline +:+ "Execution complete."
       | None => "Error: File not found: " +:+ arg
       end, t).
Proof.
  intros Harg Hne. unfold processCommand. split.
  - change ("cat " +:+ arg) with ("cat" +:+ " " +:+ arg).
    rewrite trim_command; [|by repeat constructor|done|done|done].
    simpl. by destruct (findFileByName fileSystem arg).
  - change ("run " +:+ arg) with ("run" +:+ " " +:+ arg).
    rewrite trim_command; [|by repeat constructor|done|done|done].
    simpl. by destruct (findFileByName fileSystem arg).
Qed.

(** Pressing Enter only adds to the output: the new output is the old one,
    the command line, and the response if it is not empty.  This holds for
    [clear] too: the empty output it queues is replaced by the output the
    handler queues afterwards, so the old lines stay.  The input is emptied
    and the history index reset. *)
Theorem handleKeyDown_Enter_appends t :
  ∃ t',
    handleKeyDown folderIcon fileIcon lastMark midMark fileSystem Enter t = Some t'
    ∧ input t' = ""
    ∧ historyIndex t' = (-1)%Z
    ∧ (let resp := (processCommand folderIcon fileIcon lastMark midMark
                      fileSystem (trim (input t)) t).1 in
       output t'
       = output t
         ++ {| line_type := command; line_content := trim (input t) |}
         :: (if decide (resp = "") then []
             else [{| line_type := response; line_content := resp |}]))
    ∧ (trim (input t) = "clear" →
       output t'
       = output t ++ [{| line_type := command; line_content := "clear" |}]).
Proof.
  unfold handleKeyDown.
  destruct (processCommand folderIcon fileIcon lastMark midMark fileSystem
              (trim (input t)) t) as [resp queued] eqn:Hresp.
  eexists. split; [done|]. split; [done|]. split; [done|]. split.
  - simpl. case_decide; simpl; by rewrite <- app_assoc.
  - intros Hclear. rewrite Hclear in Hresp. injection Hresp as <- <-.
    rewrite Hclear. simpl. case_decide; simpl; by rewrite app_nil_r.
Qed.

(** The history index never leaves the history.  From a state in which it
    is [-1] or an index of the history, every key is handled (no
    [undefined] reaches the input) and leaves such a state; a history
    without empty entry and without equal neighbours stays so.  The arrow
    keys leave history and output alone, and afterwards the state is
    unchanged, or the index is [-1] with an empty input, or the input is
    the history entry at the index. *)
Theorem handleKeyDown_history key t :
  indexInRange t →
  ∃ t',
    handleKeyDown folderIcon fileIcon lastMark midMark fileSystem key t = Some t'
    ∧ indexInRange t'
    ∧ (cleanHistory (history t) → cleanHistory (history t'))
    ∧ (key ≠ Enter →
       history t' = history t
       ∧ output t' = output t
       ∧ (t' = t
          ∨ (historyIndex t' = (-1)%Z ∧ input t' = "")
          ∨ at_index (history t) (historyIndex t') = Some (input t'))).
Proof.
  unfold indexInRange. intros Hrange. destruct key.
  - unfold handleKeyDown.
    destruct (processCommand folderIcon fileIcon lastMark midMark fileSystem
                (trim (input t)) t) as [resp queued] eqn:Hresp.
    assert (history queued = history t) as Hqueued.
    { revert Hresp. unfold processCommand.
      destruct (split (trim (trim (input t)))) as [|cmd args]; [by intros [= <- <-]|].
      repeat (case_decide; [try (destruct args as [|arg args]);
                            try (destruct (findFileByName fileSystem arg));
                            by intros [= <- <-]|]).
      by intros [= <- <-]. }
    eexists. split; [done|]. split; [|split; [|done]].
    + simpl. case_decide; simpl; lia.
    + intros [Hne Hadj]. case_decide as Hnew; simpl; rewrite Hqueued; [|done].
      destruct Hnew as [Hcmd Hhead]. split; [by constructor|].
      intros [|i] x y; simpl.
      * intros [= <-] Hy. destruct (history t); simplify_eq/=. done.
      * apply Hadj.
  - simpl. case_decide as Hup.
    + destruct Hup as [Hlen Hlt]. unfold at_index.
      rewrite decide_True by lia.
      destruct (lookup_lt_is_Some_2 (history t) (Z.to_nat (historyIndex t + 1)))
        as [entry Hentry]; [lia|].
      rewrite Hentry. simpl. eexists. split; [done|]. simpl.
      split; [lia|]. split; [done|]. intros _. split; [done|]. split; [done|].
      right. right. by rewrite decide_True by lia.
    + exists t. split; [done|]. split; [done|]. split; [done|]. by auto.
  - simpl. case_decide as Hdown.
    + unfold at_index. rewrite decide_True by lia.
      destruct (lookup_lt_is_Some_2 (history t) (Z.to_nat (historyIndex t - 1)))
        as [entry Hentry]; [lia|].
      rewrite Hentry. simpl. eexists. split; [done|]. simpl.
      split; [lia|]. split; [done|]. intros _. split; [done|]. split; [done|].
      right. right. by rewrite decide_True by lia.
    + eexists. split; [done|]. simpl. split; [lia|]. split; [done|].
      intros _. split; [done|]. split; [done|]. right. by left.
  - exists t. split; [done|]. split; [done|]. split; [done|]. by auto.
Qed.

End terminal_facts.

Lemma processCommand_cat_run_witness :
  processCommand "D" "F" "L" "M" demoTree ("cat " +:+ "a.ts")
    {| input := ""; output := []; history := []; historyIndex := -1 |}
  = ("let a = 1;",
     {| input := ""; output := []; history := []; historyIndex := -1 |}).
Proof.
  apply (processCommand_cat_run "D" "F" "L" "M" demoTree "a.ts").
  - by repeat constructor.
  - discriminate.
Defined.

Lemma handleKeyDown_history_witness :
  ∃ t',
    handleKeyDown "D" "F" "L" "M" demoTree ArrowUp
      {| input := ""; output := []; history := ["ls"]; historyIndex := -1 |}
    = Some t'
    ∧ indexInRange t'.
Proof.
  destruct (handleKeyDown_history "D" "F" "L" "M" demoTree ArrowUp
              {| input := ""; output := []; history := ["ls"]; historyIndex := -1 |})
    as (t' & H1 & H2 & _).
  - unfold indexInRange. simpl. lia.
  - exists t'. exact (conj H1 H2).
Defined.

(** ** The commit button and the engine together *)

Lemma stagedFileItems_nonempty cur :
  stagedFileItems cur ≠ []
  ↔ ∃ i f, i ∈ stagedFiles cur ∧ findFileInTree (fileSystem cur) i = Some f.
Proof.
  unfold stagedFileItems. split.
  - intros Hne. destruct (omap _ _) as [|f l] eqn:Hitems; [done|].
    assert (f ∈ omap (findFileInTree (fileSystem cur)) (elements (stagedFiles cur)))
      as Hf by (rewrite Hitems; left).
    apply list_elem_of_omap in Hf as (i & Hi & Hfind).
    exists i, f. split; [by apply elem_of_elements|done].
  - intros (i & f & Hi & Hfind) Hnil.
    assert (f ∈ omap (findFileInTree (fileSystem cur)) (elements (stagedFiles cur)))
      as Hf.
    { apply list_elem_of_omap. exists i. split; [by apply elem_of_elements|done]. }
    rewrite Hnil in Hf. by apply not_elem_of_nil in Hf.
Qed.

(** The commit button of the panel commits exactly when the message is not
    blank and some staged id resolves to a file of the tree; the commit it
    then records carries the trimmed message, and the state changes.  With
    a blank message the button does nothing; when no staged id resolves it
    does nothing either, even with a non-empty staged set. *)
Theorem GitPanel_handleCommit_commits clk commitMessage st cur :
  currentBranchState st = Some cur →
  (trim commitMessage ≠ "" →
   (∃ i f, i ∈ stagedFiles cur ∧ findFileInTree (fileSystem cur) i = Some f) →
   ∃ st' cur' c,
     GitPanel_handleCommit clk commitMessage st = Returned st'
     ∧ st' ≠ st
     ∧ currentBranchState st' = Some cur'
     ∧ commits cur' = c :: commits cur
     ∧ message c = trim commitMessage
     ∧ stagedFiles cur' = ∅)
  ∧ (trim commitMessage = "" →
     GitPanel_handleCommit clk commitMessage st = Returned st)
  ∧ ((∀ i, i ∈ stagedFiles cur → findFileInTree (fileSystem cur) i = None) →
     GitPanel_handleCommit clk commitMessage st = Returned st).
Proof.
  intros Hcur. split; [|split].
  - intros Hmsg Hres.
    assert (stagedFiles cur ≠ ∅) as Hstaged.
    { destruct Hres as (i & _ & Hi & _). intros Hempty.
      rewrite Hempty in Hi. by apply not_elem_of_empty in Hi. }
    rewrite (GitPanel_handleCommit_forwards _ _ _ cur)
      by (done || by apply stagedFileItems_nonempty).
    eexists _, _, _. split; [by apply handleCommit_staged|].
    split; [|split; [apply currentBranchState_replaced|done]].
    intros Heq. apply (f_equal currentBranchState) in Heq.
    rewrite currentBranchState_replaced, Hcur in Heq.
    apply (inj Some), (f_equal (λ bs, length (commits bs))) in Heq.
    simpl in Heq. lia.
  - intros Hblank. unfold GitPanel_handleCommit.
    rewrite (render_Some _ _ _ Hcur), decide_False; [done|]. by intros [? _].
  - intros Hdangling. unfold GitPanel_handleCommit.
    rewrite (render_Some _ _ _ Hcur), decide_False; [done|].
    intros [_ Hlen].
    assert (stagedFileItems cur ≠ []) as Hne by (intros Hnil; rewrite Hnil in Hlen; simpl in Hlen; lia).
    apply stagedFileItems_nonempty in Hne as (i & f & Hi & Hfind).
    rewrite (Hdangling i Hi) in Hfind. done.
Qed.

Lemma GitPanel_handleCommit_commits_witness :
  (∃ st' cur' c,
     GitPanel_handleCommit demoClock " fix " (demoState ["b.ts"]) = Returned st'
     ∧ st' ≠ demoState ["b.ts"]
     ∧ currentBranchState st' = Some cur'
     ∧ commits cur' = c :: commits (demoBranch ["b.ts"])
     ∧ message c = "fix"
     ∧ stagedFiles cur' = ∅)
  ∧ GitPanel_handleCommit demoClock "  " (demoState ["b.ts"])
    = Returned (demoState ["b.ts"]).
Proof.
  split.
  - apply (GitPanel_handleCommit_commits demoClock " fix " (demoState ["b.ts"])
             (demoBranch ["b.ts"])); [reflexivity|discriminate|].
    exists "b.ts", b_ts. split; [|reflexivity].
    apply elem_of_union_l. by apply elem_of_singleton.
  - destruct (GitPanel_handleCommit_commits demoClock "  " (demoState ["b.ts"])
                (demoBranch ["b.ts"])) as (_ & Hblank & _); [reflexivity|].
    apply Hblank. reflexivity.
Defined.
